(** * Member resolution and request cache of the ARIN IRR syncer

    A shallow embedding of the YAML helper of the syncer (the module
    imported as [helper/SimpleASSet]): the member specification parser,
    the bgpq4 invocation builder, the process-wide promise cache, and the
    two asynchronous functions that flatten one member and resolve a whole
    member list.

    Conventions of the embedding.
    - A JavaScript string is a [string]; one character stands for one
      UTF-16 code unit below 256, which covers every name the registry
      accepts.
    - A JavaScript number is a [Z]: member depths are integers, and
      [String(n)] is the decimal rendering.
    - [undefined] is [None]; an optional property is an [option].
    - The module-level [Map] is a [gmap string Handle]; a promise lives in a
      heap indexed by its handle, so that the cache and every caller that
      awaits it share one object. *)

From Stdlib Require Import ZArith Ascii String List Lia.
From stdpp Require Import base option list gmap strings fin_maps pretty.

Open Scope Z_scope.
Open Scope string_scope.
Open Scope list_scope.

(** ** JavaScript string primitives *)

Module Js.

(** Code units that [String.prototype.trim] strips, below 256: TAB, LF,
    VT, FF, CR, SPACE and NBSP. *)
Definition isWhiteSpace (c : ascii) : bool :=
  let n := nat_of_ascii c in
  ((9 <=? n)%nat && (n <=? 13)%nat) || (n =? 32)%nat || (n =? 160)%nat.

Fixpoint trimStart (s : string) : string :=
  match s with
  | EmptyString => EmptyString
  | String c rest => if isWhiteSpace c then trimStart rest else s
  end.

Fixpoint trimEnd (s : string) : string :=
  match s with
  | EmptyString => EmptyString
  | String c rest =>
      match trimEnd rest with
      | EmptyString => if isWhiteSpace c then EmptyString else String c EmptyString
      | kept => String c kept
      end
  end.

Definition trim (s : string) : string := trimEnd (trimStart s).

(** Truthiness of a string value: every string but the empty one. *)
Definition truthy (s : string) : bool :=
  match s with EmptyString => false | String _ _ => true end.

(** Truthiness of an optional string: [undefined] is falsy too. *)
Definition truthyOpt (o : option string) : bool :=
  match o with Some s => truthy s | None => false end.

(** Truthiness of an optional boolean, as in [!spec.flat]. *)
Definition truthyBool (o : option bool) : bool :=
  match o with Some b => b | None => false end.

(** [a ?? b] *)
Definition nullish {A} (a : option A) (b : A) : A :=
  match a with Some x => x | None => b end.

(** [a ?? b] when [b] itself may be undefined. *)
Definition nullishOpt {A} (a b : option A) : option A :=
  match a with Some x => Some x | None => b end.

(** The character class [[A-Za-z0-9_]]. *)
Definition isWordChar (c : ascii) : bool :=
  let n := nat_of_ascii c in
  ((48 <=? n)%nat && (n <=? 57)%nat)
  || ((65 <=? n)%nat && (n <=? 90)%nat)
  || ((97 <=? n)%nat && (n <=? 122)%nat)
  || (n =? 95)%nat.

(** [s.replace(/[^A-Za-z0-9_]/g, "_")] *)
Fixpoint replaceNonWord (s : string) : string :=
  match s with
  | EmptyString => EmptyString
  | String c rest =>
      String (if isWordChar c then c else "_"%char) (replaceNonWord rest)
  end.

(** [s.slice(b, e)] for [0 <= b <= e]. *)
Definition slice (s : string) (b e : nat) : string :=
  String.substring b (e - b) s.

(** [String(n)] for an integer. *)
Definition numberToString (n : Z) : string := pretty n.

#[local] Unset Elimination Schemes.

(** The values a parsed YAML document is made of.  An object lists its
    own properties in the order [Object.entries] enumerates them. *)
Inductive Value :=
| Undefined
| Null
| Bool (b : bool)
| Number (n : Z)
| Str (s : string)
| Array (items : list Value)
| Object (entries : list (string * Value)).

#[local] Set Elimination Schemes.

(** [record[key]]: the value of the property, [undefined] when absent. *)
Fixpoint getProp (entries : list (string * Value)) (key : string) : Value :=
  match entries with
  | [] => Undefined
  | (k, v) :: rest => if String.eqb k key then v else getProp rest key
  end.

(** A thrown [Error], identified by its message. *)
Inductive Error := MkError (message : string).

End Js.

(** ** Data model *)

Definition DEFAULT_BGPQ4_HOST : string := "whois.radb.net".

Record MemberSpec := {
  name : string;
  flat : option bool;
  depth : option Z;
  sources : option string
}.

Inductive OnEmpty := keep | empty | error.

Record FlattenOptions := {
  timeoutMs : option Z;
  onEmpty : option OnEmpty
}.

(** ** Member specification parser *)

Definition asBool (v : Js.Value) : option bool :=
  match v with Js.Bool b => Some b | _ => None end.

Definition asNumber (v : Js.Value) : option Z :=
  match v with Js.Number n => Some n | _ => None end.

Definition asTrimmedString (v : Js.Value) : option string :=
  match v with Js.Str s => Some (Js.trim s) | _ => None end.

Definition reservedKeys : list string := ["flat"; "depth"; "source"].

Definition isReserved (rawName : string) : bool :=
  existsb (String.eqb rawName) reservedKeys.

(** One iteration of the inner loop over [Object.entries(record)]. *)
Definition parseEntry (commonFlat : option bool) (commonDepth : option Z)
    (commonSources : option string) (out : list MemberSpec)
    (entry : string * Js.Value) : list MemberSpec :=
  let '(rawName, cfg) := entry in
  if isReserved rawName then out
  else
    let name := Js.trim rawName in
    if negb (Js.truthy name) then out
    else
      let '(flat, depth, sources) :=
        match cfg with
        | Js.Object nested =>
            (Js.nullishOpt (asBool (Js.getProp nested "flat")) commonFlat,
             Js.nullishOpt (asNumber (Js.getProp nested "depth")) commonDepth,
             Js.nullishOpt (asTrimmedString (Js.getProp nested "source"))
               commonSources)
        | _ => (commonFlat, commonDepth, commonSources)
        end in
      out ++ [{| name := name; flat := flat; depth := depth;
                 sources := sources |}].

(** One iteration of the outer loop over the member list. *)
Definition parseItem (out : list MemberSpec) (item : Js.Value)
    : list MemberSpec :=
  match item with
  | Js.Str s =>
      let name := Js.trim s in
      if Js.truthy name
      then out ++ [{| name := name; flat := None; depth := None;
                      sources := None |}]
      else out
  | Js.Object record =>
      let commonFlat := asBool (Js.getProp record "flat") in
      let commonDepth := asNumber (Js.getProp record "depth") in
      let commonSources := asTrimmedString (Js.getProp record "source") in
      fold_left (parseEntry commonFlat commonDepth commonSources) record out
  | _ => out
  end.

Definition parseMemberSpecs (value : Js.Value) : list MemberSpec :=
  match value with
  | Js.Array items => fold_left parseItem items []
  | _ => []
  end.

(** ** bgpq4 invocation *)

Definition sanitizeListName (name : string) : string :=
  let sanitized := Js.replaceNonWord name in
  if (64 <? String.length sanitized)%nat then Js.slice sanitized 0 64
  else sanitized.

Definition cacheKey (spec : MemberSpec) (sourcesArg : option string) : string :=
  let depthPart :=
    match depth spec with Some d => Js.numberToString d | None => "" end in
  let sourcesPart :=
    match sourcesArg with Some s => Js.trim s | None => "" end in
  name spec +:+ "|" +:+ depthPart +:+ "|" +:+ sourcesPart.

(** The argument vector [queryBgpq4ExpandedASNs] hands to [execFile]; each
    [push] appends at the end. *)
Definition bgpq4Args (spec : MemberSpec) (sourcesArg : option string)
    : list string :=
  let listName := sanitizeListName (name spec) in
  let args := ["-j"; "-t"; "-h"; DEFAULT_BGPQ4_HOST; "-l"; listName] in
  let args :=
    match sourcesArg with
    | Some s =>
        if Js.truthy s && (0 <? String.length (Js.trim s))%nat
        then args ++ ["-S"; Js.trim s] else args
    | None => args
    end in
  let args :=
    match depth spec with
    | Some d => if (0 <=? d)%Z then args ++ ["-L"; Js.numberToString d] else args
    | None => args
    end in
  args ++ [name spec].

(** ** Promises and the process-wide cache *)

(** How an asynchronous computation ends: with a value or with a thrown
    error. *)
Inductive Result (A : Type) :=
| Ok (a : A)
| Err (e : Js.Error).

Arguments Ok {A} a.
Arguments Err {A} e.

Inductive Settlement :=
| Pending
| Settled (r : Result (list string)).

(** One call of [execFile]. *)
Record ExecCall := {
  file : string;
  args : list string;
  timeout : Z;
  maxBuffer : Z
}.

(** The promise stored in the cache: [queryBgpq4ExpandedASNs(...)] chained
    with the [catch] handler, which has captured [key]. *)
Record Promise := {
  call : ExecCall;
  key : string;
  status : Settlement
}.

(** A promise is identified by its position in the heap. *)
Abbreviation Handle := nat (only parsing).

Record State := {
  FLATTEN_CACHE : gmap string Handle;
  heap : list Promise
}.

Definition initial : State := {| FLATTEN_CACHE := ∅; heap := [] |}.

(** The synchronous prefix of the adapter, up to its first [await]: it
    builds the argument vector and starts the process.  Everything after
    that point (exit status, decoding of the JSON output into AS numbers)
    is the eventual [Result] of the promise. *)
Definition queryBgpq4ExpandedASNs (spec : MemberSpec) (timeoutMs : Z)
    (sourcesArg : option string) : ExecCall :=
  {| file := "bgpq4";
     args := bgpq4Args spec sourcesArg;
     timeout := timeoutMs;
     maxBuffer := 10 * 1024 * 1024 |}.

Definition queryBgpq4ExpandedASNsCached (spec : MemberSpec) (timeoutMs : Z)
    (sourcesArg : option string) (st : State) : Handle * State :=
  let key := cacheKey spec sourcesArg in
  match FLATTEN_CACHE st !! key with
  | Some cached => (cached, st)
  | None =>
      let promise := length (heap st) in
      (promise,
       {| FLATTEN_CACHE := <[key := promise]> (FLATTEN_CACHE st);
          heap := heap st ++
                  [{| call := queryBgpq4ExpandedASNs spec timeoutMs sourcesArg;
                      key := key;
                      status := Pending |}] |})
  end.

(** The adapter behind promise [h] completes with [r].  A failure runs the
    [catch] handler: the entry under the captured key is deleted, then the
    error is rethrown into the cached promise.  A promise settles once. *)
Definition settle (h : Handle) (r : Result (list string)) (st : State)
    : State :=
  match heap st !! h with
  | Some p =>
      match status p with
      | Pending =>
          let settled :=
            {| call := call p; key := key p; status := Settled r |} in
          match r with
          | Ok _ =>
              {| FLATTEN_CACHE := FLATTEN_CACHE st;
                 heap := <[h := settled]> (heap st) |}
          | Err _ =>
              {| FLATTEN_CACHE := delete (key p) (FLATTEN_CACHE st);
                 heap := <[h := settled]> (heap st) |}
          end
      | Settled _ => st
      end
  | None => st
  end.

(** What can happen to the cache between two turns of the event loop: some
    task calls the cached query, or some running process completes. *)
Inductive step : State → State → Prop :=
| step_query spec timeoutMs sourcesArg st :
    step st (queryBgpq4ExpandedASNsCached spec timeoutMs sourcesArg st).2
| step_settle h r st :
    step st (settle h r st).

Definition reachable (st : State) : Prop := rtc step initial st.

(** Number of adapter invocations started so far under cache key [k]. *)
Definition invocations (k : string) (st : State) : nat :=
  length (filter (λ k', k' = k) (key <$> heap st)).

(** ** Asynchronous functions *)

(** An [async] function body of this module: it returns, throws, or awaits
    a cached query and continues with the value.  No [await] of the module
    sits in a [try], so a rejection always propagates. *)
Inductive Task (A : Type) :=
| Return (a : A)
| Throw (e : Js.Error)
| AwaitQuery (spec : MemberSpec) (timeoutMs : Z) (sourcesArg : option string)
    (k : list string → Task A).

Arguments Return {A} a.
Arguments Throw {A} e.
Arguments AwaitQuery {A} spec timeoutMs sourcesArg k.

Fixpoint bind {A B} (t : Task A) (f : A → Task B) : Task B :=
  match t with
  | Return a => f a
  | Throw e => Throw e
  | AwaitQuery spec timeoutMs sourcesArg k =>
      AwaitQuery spec timeoutMs sourcesArg (λ asns, bind (k asns) f)
  end.

Notation "'let*' x ':=' t 'in' k" := (bind t (λ x, k))
  (at level 10, x name, t at level 200, k at level 200).

Definition awaitCached (spec : MemberSpec) (timeoutMs : Z)
    (sourcesArg : option string) : Task (list string) :=
  AwaitQuery spec timeoutMs sourcesArg Return.

Definition emptyExpansionError (spec : MemberSpec) : Js.Error :=
  Js.MkError ("bgpq4 returned empty expansion for " +:+ name spec).

Definition flattenMemberWithBgpq4 (spec : MemberSpec)
    (options : FlattenOptions) (srcs : option string) : Task (list string) :=
  if negb (Js.truthyBool (flat spec)) then Return [name spec]
  else
    let timeoutMs := Js.nullish (timeoutMs options) 20000 in
    let* asnsWithSources := awaitCached spec timeoutMs srcs in
    if (0 <? length asnsWithSources)%nat then Return asnsWithSources
    else
      let* asnsFallback :=
        if Js.truthyOpt srcs then awaitCached spec timeoutMs None
        else Return [] in
      if (0 <? length asnsFallback)%nat then Return asnsFallback
      else
        match Js.nullish (onEmpty options) keep with
        | empty => Return []
        | error => Throw (emptyExpansionError spec)
        | keep => Return [name spec]
        end.

(** [Array.from(new Set(out))]: a [Set] keeps the first occurrence of each
    string, in insertion order. *)
Definition setAdd (seen : list string) (x : string) : list string :=
  if bool_decide (x ∈ seen) then seen else seen ++ [x].

Definition arrayFromSet (out : list string) : list string :=
  fold_left setAdd out [].

(** The loop of [resolveMembers], with [out] as its accumulator. *)
Fixpoint resolveLoop (specs : list MemberSpec) (options : FlattenOptions)
    (srcs : option string) (out : list string) : Task (list string) :=
  match specs with
  | [] => Return (arrayFromSet out)
  | spec :: rest =>
      let* resolved :=
        flattenMemberWithBgpq4 spec options
          (Js.nullishOpt (sources spec) srcs) in
      resolveLoop rest options srcs (out ++ resolved)
  end.

Definition resolveMembers (specs : list MemberSpec) (options : FlattenOptions)
    (srcs : option string) : Task (list string) :=
  resolveLoop specs options srcs [].

(** ** Running a task to completion *)

(** The outside world of a sequential run: what the process started by a
    given [execFile] call, behind a given promise, ends with. *)
Definition Env := Handle → ExecCall → Result (list string).

Definition danglingHandle : Js.Error := Js.MkError "no such promise".

(** [await] on promise [h].  A settled promise hands over its result; a
    pending one suspends the task until its process completes.  Handles
    come from [queryBgpq4ExpandedASNsCached] only, which never returns one
    outside the heap of a reachable state; the last branch makes the
    function total. *)
Definition awaitPromise (env : Env) (h : Handle) (st : State)
    : Result (list string) * State :=
  match heap st !! h with
  | Some p =>
      match status p with
      | Settled r => (r, st)
      | Pending => let r := env h (call p) in (r, settle h r st)
      end
  | None => (Err danglingHandle, st)
  end.

Definition awaitQuery (env : Env) (spec : MemberSpec) (timeoutMs : Z)
    (sourcesArg : option string) (st : State)
    : Result (list string) * State :=
  let '(h, st1) := queryBgpq4ExpandedASNsCached spec timeoutMs sourcesArg st in
  awaitPromise env h st1.

Fixpoint run {A} (env : Env) (t : Task A) (st : State) : Result A * State :=
  match t with
  | Return a => (Ok a, st)
  | Throw e => (Err e, st)
  | AwaitQuery spec timeoutMs sourcesArg k =>
      match awaitQuery env spec timeoutMs sourcesArg st with
      | (Ok asns, st1) => run env (k asns) st1
      | (Err e, st1) => (Err e, st1)
      end
  end.

(** The calls of [queryBgpq4ExpandedASNsCached] a run makes, in order. *)
Fixpoint queries {A} (env : Env) (t : Task A) (st : State)
    : list (MemberSpec * Z * option string) :=
  match t with
  | Return _ | Throw _ => []
  | AwaitQuery spec timeoutMs sourcesArg k =>
      (spec, timeoutMs, sourcesArg) ::
      match awaitQuery env spec timeoutMs sourcesArg st with
      | (Ok asns, st1) => queries env (k asns) st1
      | (Err _, _) => []
      end
  end.

(** ** The invariant of the cache *)

Definition failed (p : Promise) : Prop := ∃ e, status p = Settled (Err e).

(** The invariant of the cache: it holds exactly the promises that have
    not failed, each under the key it was created for. *)
Record wf (st : State) : Prop := {
  wf_cached : ∀ k h,
    FLATTEN_CACHE st !! k = Some h →
    ∃ p, heap st !! h = Some p ∧ key p = k ∧ ¬ failed p;
  wf_live : ∀ h p,
    heap st !! h = Some p → ¬ failed p →
    FLATTEN_CACHE st !! key p = Some h
}.

(** ** The parser and the invocation, as the specification words them *)

(** The optional fields a mapping can give, at its top level or per
    member. *)
Record Config := {
  cfgFlat : option bool;
  cfgDepth : option Z;
  cfgSource : option string
}.

Definition noConfig : Config :=
  {| cfgFlat := None; cfgDepth := None; cfgSource := None |}.

(** The well-typed fields present on a configuration object; anything that
    is not an object configures nothing. *)
Definition configOf (v : Js.Value) : Config :=
  match v with
  | Js.Object fields =>
      {| cfgFlat := asBool (Js.getProp fields "flat");
         cfgDepth := asNumber (Js.getProp fields "depth");
         cfgSource := asTrimmedString (Js.getProp fields "source") |}
  | _ => noConfig
  end.

(** Per-member configuration overrides the shared defaults, field by
    field, where the member gives the field. *)
Definition override (member shared : Config) : Config :=
  {| cfgFlat := Js.nullishOpt (cfgFlat member) (cfgFlat shared);
     cfgDepth := Js.nullishOpt (cfgDepth member) (cfgDepth shared);
     cfgSource := Js.nullishOpt (cfgSource member) (cfgSource shared) |}.

(** The named entries of one element of the member list: a plain string
    names one member; a mapping names one member per key that is not
    reserved; anything else names none. *)
Definition namedEntries (item : Js.Value) : list (string * Config) :=
  match item with
  | Js.Str s => [(s, noConfig)]
  | Js.Object record =>
      (λ entry, (entry.1, override (configOf entry.2) (configOf item)))
        <$> filter (λ entry, entry.1 ∉ reservedKeys) record
  | _ => []
  end.

(** The member of a named entry; none when the name is blank. *)
Definition specOfEntry (entry : string * Config) : option MemberSpec :=
  if decide (Js.trim entry.1 = "") then None
  else Some {| name := Js.trim entry.1;
               flat := cfgFlat entry.2;
               depth := cfgDepth entry.2;
               sources := cfgSource entry.2 |}.

Definition specParse (items : list Js.Value) : list MemberSpec :=
  omap specOfEntry (items ≫= namedEntries).

(** What the sanitizer does to one code unit. *)
Definition wordOrUnderscore (c : ascii) : ascii :=
  if Js.isWordChar c then c else "_"%char.

(** The optional flags of the invocation. *)
Definition sourcesFlag (sourcesArg : option string) : list string :=
  match sourcesArg with
  | Some s => if decide (Js.trim s = "") then [] else ["-S"; Js.trim s]
  | None => []
  end.

Definition depthFlag (depth : option Z) : list string :=
  match depth with
  | Some d => if decide (0 ≤ d)%Z then ["-L"; Js.numberToString d] else []
  | None => []
  end.

(** ** Flattening each member on its own *)

(** The members of a list flattened one by one, in order, each by a call of
    [flattenMemberWithBgpq4] of its own with the member's sources override
    or else the default sources; the first failure ends it.  The calls
    share the process-wide cache, as any calls in one process do. *)
Fixpoint flattenEach (env : Env) (specs : list MemberSpec)
    (options : FlattenOptions) (srcs : option string) (st : State)
    : Result (list (list string)) * State :=
  match specs with
  | [] => (Ok [], st)
  | spec :: rest =>
      match run env (flattenMemberWithBgpq4 spec options
                       (Js.nullishOpt (sources spec) srcs)) st with
      | (Ok resolved, st1) =>
          match flattenEach env rest options srcs st1 with
          | (Ok others, st2) => (Ok (resolved :: others), st2)
          | (Err e, st2) => (Err e, st2)
          end
      | (Err e, st1) => (Err e, st1)
      end
  end.

(** ** Sample members and environments *)

Definition asFoo : MemberSpec :=
  {| name := "AS-FOO"; flat := Some true; depth := Some 1; sources := None |}.

(** The same name and depth as [asFoo], not marked flat. *)
Definition asFooPlain : MemberSpec :=
  {| name := "AS-FOO"; flat := None; depth := Some 1; sources := None |}.

Definition asBar : MemberSpec :=
  {| name := "AS-BAR"; flat := None; depth := None; sources := None |}.

Definition asBaz : MemberSpec :=
  {| name := "AS-BAZ"; flat := Some true; depth := None; sources := None |}.

Definition defaultOptions : FlattenOptions :=
  {| timeoutMs := None; onEmpty := None |}.

Definition withOnEmpty (policy : OnEmpty) : FlattenOptions :=
  {| timeoutMs := None; onEmpty := Some policy |}.

(** Queries restricted to a source come back empty; the default source set
    knows AS1 and AS2. *)
Definition envSourceX : Env := λ _ started,
  if bool_decide ("-S" ∈ args started) then Ok [] else Ok ["AS1"; "AS2"].

Definition envEmpty : Env := λ _ _, Ok [].

(** AS-FOO expands to AS100 and AS200. *)
Definition envScenario : Env := λ _ started,
  if bool_decide ("AS-FOO" ∈ args started) then Ok ["AS100"; "AS200"]
  else Ok [].

Definition toolFailure : Js.Error := Js.MkError "bgpq4 failed (exit 1): ".

Definition envFailing : Env := λ _ _, Err toolFailure.

(** The first process fails, every later one finds AS100. *)
Definition envFlaky : Env := λ h _,
  match h with O => Err toolFailure | S _ => Ok ["AS100"] end.


(** ** The adapter once the process has ended *)

(** Whether every code unit of a string passes a test. *)
Fixpoint every (test : ascii → bool) (s : string) : bool :=
  match s with
  | EmptyString => true
  | String c rest => test c && every test rest
  end.

Definition notBar (c : ascii) : bool := negb (Ascii.eqb c "|").

(** What [execFile] hands to its callback: the captured output, or an
    error with its [code] (already rendered; absent when the process was
    killed) and its message. *)
Inductive ExecResult :=
| Exited (stdout stderr : string)
| ExecError (code : option string) (message : string) (stderr : string).

Definition execFileAsync (r : ExecResult) : Result (string * string) :=
  match r with
  | ExecError code message stderr =>
      Err (Js.MkError
             ("bgpq4 failed (exit " +:+ Js.nullish code "unknown" +:+ "): "
              +:+ (if Js.truthy stderr then stderr else message)))
  | Exited stdout stderr => Ok (stdout, stderr)
  end.

(** [Object.keys(obj)[0] ?? ""] *)
Definition firstKey (obj : list (string * Js.Value)) : string :=
  match obj with
  | (k, _) :: _ => k
  | [] => ""
  end.

Definition asArray (v : Js.Value) : option (list Js.Value) :=
  match v with Js.Array items => Some items | _ => None end.

(** The bucket of the output: the array under the list label, else the
    array under the first key, else nothing. *)
Definition bucketOf (listName : string) (obj : list (string * Js.Value))
    : list Js.Value :=
  match asArray (Js.getProp obj listName) with
  | Some items => items
  | None =>
      match asArray (Js.getProp obj (firstKey obj)) with
      | Some items => items
      | None => []
      end
  end.

Definition asnsOfBucket (bucket : list Js.Value) : list string :=
  let rendered :=
    (λ v, match v with Js.Number n => Js.numberToString n | _ => "" end)
      <$> bucket in
  let trimmed := Js.trim <$> rendered in
  let kept := filter (λ s, (0 < String.length s)%nat) trimmed in
  (λ s, "AS" +:+ s) <$> kept.

(** [queryBgpq4ExpandedASNs] from its [await] on: what the promise settles
    with, given how the process ended.  [JSON_parse] is [JSON.parse], with
    [None] for a thrown [SyntaxError]. *)
Definition queryBgpq4ExpandedASNs_resume
    (JSON_parse : string → option Js.Value) (spec : MemberSpec)
    (r : ExecResult) : Result (list string) :=
  let listName := sanitizeListName (name spec) in
  match execFileAsync r with
  | Err e => Err e
  | Ok (stdout, _) =>
      match JSON_parse stdout with
      | None =>
          Err (Js.MkError
                 ("bgpq4 returned non-JSON output: " +:+ Js.slice stdout 0 200))
      | Some (Js.Object obj) => Ok (asnsOfBucket (bucketOf listName obj))
      | Some _ => Err (Js.MkError "bgpq4 JSON output is not an object")
      end
  end.

(** A stand-in for [JSON.parse] that knows two outputs (written here
    without their quotation marks). *)
Definition parseSample (stdout : string) : option Js.Value :=
  if String.eqb stdout "{AS_FOO: [64500, x, 64501]}"
  then Some (Js.Object
               [("AS_FOO", Js.Array [Js.Number 64500; Js.Str "x";
                                     Js.Number 64501])])
  else if String.eqb stdout "[]" then Some (Js.Array [])
  else None.


(** ** More string primitives *)

Definition LF : ascii := ascii_of_nat 10.
Definition CR : ascii := ascii_of_nat 13.
Definition isLF (c : ascii) : bool := Ascii.eqb c LF.
Definition notLF (c : ascii) : bool := negb (isLF c).
Definition notWhiteSpace (c : ascii) : bool := negb (Js.isWhiteSpace c).

(** [s.split("\n")] *)
Fixpoint splitLF (s : string) : list string :=
  match s with
  | EmptyString => [EmptyString]
  | String c rest =>
      if isLF c then EmptyString :: splitLF rest
      else
        match splitLF rest with
        | line :: lines => String c line :: lines
        | [] => [String c EmptyString]
        end
  end.

(** [s.replace(/\r\n/g, "\n")] *)
Fixpoint replaceCRLF (s : string) : string :=
  match s with
  | EmptyString => EmptyString
  | String c rest =>
      match rest with
      | String c' rest' =>
          if Ascii.eqb c CR && isLF c' then String LF (replaceCRLF rest')
          else String c (replaceCRLF rest)
      | EmptyString => String c EmptyString
      end
  end.

(** [s.split(/\r?\n/)] *)
Fixpoint splitNewline (s : string) : list string :=
  match s with
  | EmptyString => [EmptyString]
  | String c rest =>
      let continue :=
        match splitNewline rest with
        | line :: lines => String c line :: lines
        | [] => [String c EmptyString]
        end in
      if isLF c then EmptyString :: splitNewline rest
      else
        match rest with
        | String c' rest' =>
            if Ascii.eqb c CR && isLF c' then EmptyString :: splitNewline rest'
            else continue
        | EmptyString => continue
        end
  end.

(** [lines.join(sep)] *)
Fixpoint join (sep : string) (lines : list string) : string :=
  match lines with
  | [] => EmptyString
  | [line] => line
  | line :: rest => line +:+ sep +:+ join sep rest
  end.

Definition newline : string := String LF EmptyString.

(** ** The YAML helper around the resolver *)

(** A valid [Date], by its time value. *)
Record Date := { getTime : Z }.

Module ARINPoc.
Record t := { handle : string }.
End ARINPoc.

Module ARINOrg.
Record t := { handle : string }.
End ARINOrg.

Module ARINPocLink.
Record t := {
  description : string;
  handle : ARINPoc.t;
  function : string
}.
End ARINPocLink.

Definition isRecord (value : Js.Value) : bool :=
  match value with Js.Object _ => true | _ => false end.

Definition asString (v : Js.Value) : option string :=
  match v with Js.Str s => Some s | _ => None end.

Definition nonEmpty (s : string) : bool := (0 <? String.length s)%nat.

Definition splitMultiline (value : Js.Value) : list string :=
  match value with
  | Js.Str s =>
      filter (λ line, nonEmpty line = true)
        (Js.trim <$> (Js.trimEnd <$> splitNewline s))
  | _ => []
  end.

Definition normalizeMembers (value : Js.Value) : list string :=
  name <$> parseMemberSpecs value.

(** One turn of the loop of [normalizePocLinks]. *)
Definition normalizePocLink (out : list ARINPocLink.t) (item : Js.Value)
    : list ARINPocLink.t :=
  match item with
  | Js.Object fields =>
      let handle :=
        match Js.getProp fields "handle" with
        | Js.Str s => Js.trim s
        | _ => ""
        end in
      if negb (Js.truthy handle) then out
      else
        let description :=
          match Js.getProp fields "description" with
          | Js.Str s => s
          | _ => ""
          end in
        let functionValue :=
          match Js.getProp fields "function" with
          | Js.Str s => s
          | _ => ""
          end in
        out ++ [{| ARINPocLink.handle := {| ARINPoc.handle := handle |};
                   ARINPocLink.description := description;
                   ARINPocLink.function := functionValue |}]
  | _ => out
  end.

Definition normalizePocLinks (value : Js.Value) : list ARINPocLink.t :=
  match value with
  | Js.Array items => fold_left normalizePocLink items []
  | _ => []
  end.


(** ** The AS-SET object and its RPSL form *)

(** [s.startsWith(c)] for a one-character [c]. *)
Definition startsWithChar (c : ascii) (s : string) : bool :=
  match s with
  | String c' _ => Ascii.eqb c' c
  | EmptyString => false
  end.

(** [/^[ \t]/.test(s)] *)
Definition isBlank (c : ascii) : bool :=
  Ascii.eqb c " " || Ascii.eqb c (ascii_of_nat 9).

Definition startsWithBlank (s : string) : bool :=
  match s with
  | String c _ => isBlank c
  | EmptyString => false
  end.

(** [s.replace(/^[ \t]+/, "")] *)
Fixpoint stripLeadingBlanks (s : string) : string :=
  match s with
  | String c rest => if isBlank c then stripLeadingBlanks rest else s
  | EmptyString => EmptyString
  end.

(** [s.indexOf(":")], [None] for [-1]. *)
Fixpoint indexOfColon (s : string) : option nat :=
  match s with
  | EmptyString => None
  | String c rest =>
      if Ascii.eqb c ":" then Some O else S <$> indexOfColon rest
  end.

(** [s.slice(b)] *)
Fixpoint sliceFrom (s : string) (b : nat) : string :=
  match b, s with
  | O, _ => s
  | S b', String _ rest => sliceFrom rest b'
  | S _, EmptyString => EmptyString
  end.

(** [toLowerCase] on one code unit below 256: the letters A to Z, and the
    Latin-1 capitals except the multiplication sign. *)
Definition lowerChar (c : ascii) : ascii :=
  let n := nat_of_ascii c in
  if ((65 <=? n)%nat && (n <=? 90)%nat)
     || ((192 <=? n)%nat && (n <=? 222)%nat && negb (n =? 215)%nat)
  then ascii_of_nat (n + 32) else c.

Fixpoint toLowerCase (s : string) : string :=
  match s with
  | EmptyString => EmptyString
  | String c rest => String (lowerChar c) (toLowerCase rest)
  end.

Module ASSet.

Record t := {
  name : string;
  creationDate : option Date;
  lastModifiedDate : option Date;
  descriptions : list string;
  remarks : option (list string);
  pocLinks : list ARINPocLink.t;
  orgHandle : option ARINOrg.t;
  members : list string
}.

(** The read-only [source] of every instance. *)
Definition source : string := "ARIN".

(** [new ASSet()], which is also what [reset] leaves. *)
Definition fresh : t :=
  {| name := ""; creationDate := None; lastModifiedDate := None;
     descriptions := []; remarks := Some []; pocLinks := [];
     orgHandle := None; members := [] |}.

Definition reset (this : t) : t := fresh.

Section Sorting.

(** [a.localeCompare(b)]: negative, zero or positive.  The collation is
    that of the host, so it stays a parameter. *)
Variable localeCompare : string → string → Z.

(** [Array.prototype.sort] is stable; with a consistent comparator it
    returns what inserting the elements one by one, from the last to the
    first, each before the first element not smaller than it, returns. *)
Fixpoint insertSorted (x : string) (sorted : list string) : list string :=
  match sorted with
  | [] => [x]
  | y :: rest =>
      if (localeCompare x y <=? 0)%Z then x :: y :: rest
      else y :: insertSorted x rest
  end.

Definition sort (l : list string) : list string := foldr insertSorted [] l.

Definition normalizeMembers (members : list string) : list string :=
  sort (filter (λ s, nonEmpty s = true) (Js.trim <$> members)).

(** The loops of [toRPSL] that push one line per non-blank text. *)
Definition pushTexts (label : string) (lines : list string)
    (texts : list string) : list string :=
  fold_left
    (λ lines text,
       let text := Js.trim text in
       if Js.truthy text then lines ++ [label +:+ text] else lines)
    texts lines.

Definition pushPocLink (lines : list string) (p : ARINPocLink.t)
    : list string :=
  let handle := Js.trim (ARINPoc.handle (ARINPocLink.handle p)) in
  if negb (Js.truthy handle) then lines
  else if String.eqb (ARINPocLink.function p) "T"
  then lines ++ ["tech-c: " +:+ handle]
  else if String.eqb (ARINPocLink.function p) "AD"
  then lines ++ ["admin-c: " +:+ handle]
  else lines.

Definition toRPSL (this : t) : Result string :=
  if negb (Js.truthy (name this)) || negb (Js.truthy (Js.trim (name this)))
  then Err (Js.MkError "ASSet.name is required")
  else
    let lines := ["as-set: " +:+ Js.trim (name this)] in
    let lines := pushTexts "descr: " lines (descriptions this) in
    let lines :=
      match remarks this with
      | Some rs => pushTexts "remarks: " lines rs
      | None => lines
      end in
    let lines :=
      match orgHandle this with
      | Some org =>
          if Js.truthy (ARINOrg.handle org)
             && Js.truthy (Js.trim (ARINOrg.handle org))
          then lines ++ ["org-handle: " +:+ Js.trim (ARINOrg.handle org)]
          else lines
      | None => lines
      end in
    let lines := fold_left pushPocLink (pocLinks this) lines in
    let lines :=
      pushTexts "members: " lines (normalizeMembers (members this)) in
    let lines := lines ++ ["source: " +:+ source] in
    Ok (join newline lines +:+ newline).

End Sorting.

(** The state of [parseRpslFields]: the field map and [lastKey]. *)
Record Fields := {
  fields : gmap string (list string);
  lastKey : option string
}.

Definition pushField (keyRaw valueRaw : string) (st : Fields) : Fields :=
  let key := toLowerCase (Js.trim keyRaw) in
  let value := Js.trim valueRaw in
  if negb (Js.truthy key) then st
  else
    {| fields := <[key := default [] (fields st !! key) ++ [value]]> (fields st);
       lastKey := Some key |}.

(** [arr[arr.length - 1] = ...] *)
Definition setLast (arr : list string) (x : string) : list string :=
  <[pred (length arr) := x]> arr.

Definition appendContinuation (valueRaw : string) (st : Fields) : Fields :=
  match lastKey st with
  | None => st
  | Some key =>
      let value := stripLeadingBlanks valueRaw in
      match fields st !! key with
      | None => st
      | Some arr =>
          match last arr with
          | None => st
          | Some lastValue =>
              {| fields :=
                   <[key := setLast arr
                              (Js.trimEnd (lastValue +:+ newline +:+ value))]>
                     (fields st);
                 lastKey := lastKey st |}
          end
      end
  end.

(** One turn of the loop over the raw lines. *)
Definition parseRpslLine (st : Fields) (rawLine : string) : Fields :=
  let line := Js.trimEnd rawLine in
  if negb (Js.truthy line) then {| fields := fields st; lastKey := None |}
  else if startsWithChar "#" line || startsWithChar "%" line then st
  else if startsWithBlank rawLine then appendContinuation rawLine st
  else
    match indexOfColon line with
    | None => st
    | Some idx =>
        pushField (Js.slice line 0 idx) (sliceFrom line (S idx)) st
    end.

Definition parseRpslFields (rpslText : string) : gmap string (list string) :=
  let rawLines := splitLF (replaceCRLF rpslText) in
  fields (fold_left parseRpslLine rawLines
            {| fields := ∅; lastKey := None |}).

(** [a ?? b] on two lookups. *)
Definition firstOf (fs : gmap string (list string)) (keys : list string)
    : list string :=
  default [] (foldr (λ k found, Js.nullishOpt (fs !! k) found) None keys).

Definition makePoc (fn desc : string) (links : list ARINPocLink.t)
    (handle : string) : list ARINPocLink.t :=
  let h := Js.trim handle in
  if negb (Js.truthy h) then links
  else links ++ [{| ARINPocLink.handle := {| ARINPoc.handle := h |};
                    ARINPocLink.function := fn;
                    ARINPocLink.description := desc |}].

Definition trimmedNonEmpty (l : list string) : list string :=
  filter (λ s, nonEmpty s = true) (Js.trim <$> l).

(** [fromRPSL]: what is thrown, if anything, and the object afterwards. *)
Definition fromRPSL (localeCompare : string → string → Z)
    (rpslText : string) (this : t) : Result () * t :=
  if (String.length (Js.trim rpslText) =? 0)%nat
  then (Err (Js.MkError "Invalid RPSL: empty input"), this)
  else
    let this := reset this in
    let fs := parseRpslFields rpslText in
    let asSetNames := firstOf fs ["as-set"; "as_set"] in
    let name := Js.trim (default "" (head asSetNames)) in
    if negb (Js.truthy name)
    then (Err (Js.MkError "Invalid RPSL: missing 'as-set' attribute"), this)
    else
      let this :=
        {| name := name; creationDate := creationDate this;
           lastModifiedDate := lastModifiedDate this;
           descriptions := descriptions this; remarks := remarks this;
           pocLinks := pocLinks this; orgHandle := orgHandle this;
           members := members this |} in
      let source' := Js.trim (default "" (head (firstOf fs ["source"]))) in
      if Js.truthy source' && negb (String.eqb source' source)
      then (Err (Js.MkError ("Unexpected source: " +:+ source')), this)
      else
        let orgHandle' :=
          Js.trim (default ""
                     (head (firstOf fs ["org-handle"; "org_handle";
                                        "orghandle"]))) in
        let links := fold_left (makePoc "T" "Tech") (firstOf fs ["tech-c"])
                       (pocLinks this) in
        let links := fold_left (makePoc "AD" "Admin") (firstOf fs ["admin-c"])
                       links in
        (Ok (),
         {| name := name;
            creationDate := creationDate this;
            lastModifiedDate := lastModifiedDate this;
            descriptions := trimmedNonEmpty (firstOf fs ["descr"]);
            remarks :=
              Some (filter (λ s, nonEmpty s = true)
                      (firstOf fs ["remarks"] ≫= λ s,
                         trimmedNonEmpty (splitLF s)));
            pocLinks := links;
            orgHandle :=
              if Js.truthy orgHandle'
              then Some {| ARINOrg.handle := orgHandle' |}
              else orgHandle this;
            members :=
              normalizeMembers localeCompare
                (trimmedNonEmpty (firstOf fs ["members"])) |}).

End ASSet.

(** Comparison by code units, a stand-in for the collation of a host. *)
Definition compareCodeUnits (a b : string) : Z :=
  match String.compare a b with
  | Lt => -1
  | Eq => 0
  | Gt => 1
  end.


(** ** From a YAML document to an AS-SET *)

Section Yaml.

(** [new Date(s)], with [None] for an invalid date. *)
Variable Date_parse : string → option Date.

(** [parse] of the YAML library: the document, or what it throws. *)
Variable parse : string → Result Js.Value.

(** A parsed document holds no [Date] object, so only the string case of
    [parseDate] can yield one. *)
Definition parseDate (value : Js.Value) : option Date :=
  match value with
  | Js.Str s => Date_parse s
  | _ => None
  end.

Definition trimmedString (v : Js.Value) : string :=
  match v with Js.Str s => Js.trim s | _ => "" end.

Definition ASSetFromYamlObject (value : Js.Value) : Result ASSet.t :=
  match value with
  | Js.Object y =>
      let name := trimmedString (Js.getProp y "name") in
      if negb (Js.truthy name)
      then Err (Js.MkError "Invalid ASSet YAML: missing/empty 'name'")
      else
        let source := trimmedString (Js.getProp y "source") in
        if Js.truthy source && negb (String.eqb source "ARIN")
        then Err (Js.MkError
                    ("Invalid ASSet YAML: unsupported 'source' ("
                     +:+ source +:+ ")"))
        else
          Ok {| ASSet.name := name;
                ASSet.creationDate := parseDate (Js.getProp y "created");
                ASSet.lastModifiedDate := None;
                ASSet.descriptions :=
                  splitMultiline (Js.getProp y "description");
                ASSet.remarks :=
                  Some (splitMultiline (Js.getProp y "remarks"));
                ASSet.members := normalizeMembers (Js.getProp y "members");
                ASSet.pocLinks := normalizePocLinks (Js.getProp y "pocLinks");
                ASSet.orgHandle :=
                  match Js.getProp y "orgHandle" with
                  | Js.Str s =>
                      if (0 <? String.length (Js.trim s))%nat
                      then Some {| ARINOrg.handle := Js.trim s |}
                      else None
                  | _ => None
                  end |}
  | _ => Err (Js.MkError "Invalid ASSet YAML: root must be a mapping/object")
  end.

Definition ASSetFromYaml (yamlText : string) : Result ASSet.t :=
  match parse yamlText with
  | Ok obj => ASSetFromYamlObject obj
  | Err e => Err e
  end.

Definition withMembers (asSet : ASSet.t) (members : list string) : ASSet.t :=
  {| ASSet.name := ASSet.name asSet;
     ASSet.creationDate := ASSet.creationDate asSet;
     ASSet.lastModifiedDate := ASSet.lastModifiedDate asSet;
     ASSet.descriptions := ASSet.descriptions asSet;
     ASSet.remarks := ASSet.remarks asSet;
     ASSet.pocLinks := ASSet.pocLinks asSet;
     ASSet.orgHandle := ASSet.orgHandle asSet;
     ASSet.members := members |}.

Definition ASSetFromYamlAndFlatten (yamlText : string)
    (options : FlattenOptions) : Task ASSet.t :=
  match parse yamlText with
  | Err e => Throw e
  | Ok obj =>
      match obj with
      | Js.Object y =>
          match ASSetFromYamlObject obj with
          | Err e => Throw e
          | Ok asSet =>
              let source := trimmedString (Js.getProp y "source") in
              if negb (Js.truthy source)
              then Throw (Js.MkError
                     "Invalid ASSet YAML: missing/empty 'source' for flattening")
              else
                let specs := parseMemberSpecs (Js.getProp y "members") in
                let* members := resolveMembers specs options (Some source) in
                Return (withMembers asSet members)
          end
      | _ =>
          Throw (Js.MkError
                   "Invalid ASSet YAML: root must be a mapping/object")
      end
  end.

End Yaml.


(** The raw names one element of a member list carries: a plain string,
    or the keys of a mapping other than the reserved ones. *)
Definition rawNames (item : Js.Value) : list string :=
  match item with
  | Js.Str s => [s]
  | Js.Object record => (filter (λ entry, entry.1 ∉ reservedKeys) record).*1
  | _ => []
  end.

(** A raw name trimmed, unless nothing is left of it. *)
Definition nonBlankName (raw : string) : option string :=
  if decide (Js.trim raw = "") then None else Some (Js.trim raw).

(** A text in normal form: trimmed and not empty. *)
Definition normalText (s : string) : Prop := s ≠ "" ∧ Js.trim s = s.

(** A sample document, as the YAML parser hands it over. *)
Definition sampleDocument : Js.Value :=
  Js.Object
    [("name", Js.Str " AS-EXAMPLE ");
     ("source", Js.Str "ARIN");
     ("orgHandle", Js.Str "EXAMPLE-1 ");
     ("members",
      Js.Array [Js.Str "AS64500";
                Js.Object [("AS-PEER", Js.Object [("depth", Js.Number 2)])];
                Js.Str "AS64500"]);
     ("pocLinks",
      Js.Array [Js.Object [("handle", Js.Str " POC1-ARIN");
                           ("function", Js.Str "T")];
                Js.Object [("function", Js.Str "AD")]])].

Definition noDates (s : string) : option Date := None.

Definition parseToSample (yamlText : string) : Result Js.Value :=
  Ok sampleDocument.


(** ** The RPSL text as attribute lines *)

(** One attribute line is a key and a value. *)
Definition renderPair (pair : string * string) : string :=
  pair.1 +:+ ": " +:+ pair.2.

(** The values an attribute list holds under a key, in order. *)
Definition valuesOf (key : string) (pairs : list (string * string))
    : list string :=
  (filter (λ pair, pair.1 = key) pairs).*2.

(** The contact attribute of a link: [tech-c] or [admin-c] by its
    function, if it has a handle. *)
Definition pocPair (p : ARINPocLink.t) : option (string * string) :=
  let handle := Js.trim (ARINPoc.handle (ARINPocLink.handle p)) in
  if decide (handle = "") then None
  else if decide (ARINPocLink.function p = "T") then Some ("tech-c", handle)
  else if decide (ARINPocLink.function p = "AD") then Some ("admin-c", handle)
  else None.

Definition orgPair (org : option ARINOrg.t) : list (string * string) :=
  match org with
  | Some o =>
      if decide (Js.trim (ARINOrg.handle o) = "") then []
      else [("org-handle", Js.trim (ARINOrg.handle o))]
  | None => []
  end.

(** The attributes [toRPSL] writes, in the order it writes them. *)
Definition rpslPairs (localeCompare : string → string → Z) (this : ASSet.t)
    : list (string * string) :=
  [("as-set", Js.trim (ASSet.name this))]
  ++ (pair "descr" <$> ASSet.trimmedNonEmpty (ASSet.descriptions this))
  ++ (pair "remarks"
        <$> ASSet.trimmedNonEmpty (default [] (ASSet.remarks this)))
  ++ orgPair (ASSet.orgHandle this)
  ++ omap pocPair (ASSet.pocLinks this)
  ++ (pair "members"
        <$> ASSet.normalizeMembers localeCompare (ASSet.members this))
  ++ [("source", ASSet.source)].

Definition rpslKeys : list string :=
  ["as-set"; "descr"; "remarks"; "org-handle"; "tech-c"; "admin-c";
   "members"; "source"].

(** The contacts [fromRPSL] builds from handles. *)
Definition techLink (handle : string) : ARINPocLink.t :=
  {| ARINPocLink.handle := {| ARINPoc.handle := handle |};
     ARINPocLink.function := "T";
     ARINPocLink.description := "Tech" |}.

Definition adminLink (handle : string) : ARINPocLink.t :=
  {| ARINPocLink.handle := {| ARINPoc.handle := handle |};
     ARINPocLink.function := "AD";
     ARINPocLink.description := "Admin" |}.

(** What [pushField] does for a key and a value already in normal form. *)
Definition addPair (fs : gmap string (list string)) (pair : string * string)
    : gmap string (list string) :=
  <[pair.1 := default [] (fs !! pair.1) ++ [pair.2]]> fs.

(** The texts of an AS-SET that end up on attribute lines. *)
Definition textsOf (this : ASSet.t) : list string :=
  ASSet.name this
  :: ASSet.descriptions this
  ++ default [] (ASSet.remarks this)
  ++ from_option (λ o, [ARINOrg.handle o]) [] (ASSet.orgHandle this)
  ++ ((λ p, ARINPoc.handle (ARINPocLink.handle p)) <$> ASSet.pocLinks this)
  ++ ASSet.members this.

(** A comparator that orders: total and transitive. *)
Definition ordering (cmp : string → string → Z) : Prop :=
  (∀ a b, (cmp a b ≤ 0)%Z ∨ (cmp b a ≤ 0)%Z)
  ∧ (∀ a b c, (cmp a b ≤ 0)%Z → (cmp b c ≤ 0)%Z → (cmp a c ≤ 0)%Z).

(** Sorted by a comparator: no element is greater than a later one. *)
Inductive sortedBy (cmp : string → string → Z) : list string → Prop :=
| sortedBy_nil : sortedBy cmp []
| sortedBy_cons x l :
    Forall (λ y, (cmp x y ≤ 0)%Z) l → sortedBy cmp l → sortedBy cmp (x :: l).

(** A sample AS-SET. *)
Definition sampleASSet : ASSet.t :=
  {| ASSet.name := " AS-EXAMPLE ";
     ASSet.creationDate := Some {| getTime := 0 |};
     ASSet.lastModifiedDate := None;
     ASSet.descriptions := ["Example customers "; "  "];
     ASSet.remarks := Some ["see https://example.net"];
     ASSet.pocLinks :=
       [{| ARINPocLink.description := "x";
           ARINPocLink.handle := {| ARINPoc.handle := "ADMIN1-ARIN" |};
           ARINPocLink.function := "AD" |};
        {| ARINPocLink.description := "y";
           ARINPocLink.handle := {| ARINPoc.handle := " TECH1-ARIN" |};
           ARINPocLink.function := "T" |}];
     ASSet.orgHandle := Some {| ARINOrg.handle := "EXAMPLE-1" |};
     ASSet.members := ["AS64501"; " AS64500"; ""] |}.


(** * Properties *)

(** ** The request cache *)

Lemma query_hit spec timeoutMs sourcesArg st h :
  FLATTEN_CACHE st !! cacheKey spec sourcesArg = Some h →
  queryBgpq4ExpandedASNsCached spec timeoutMs sourcesArg st = (h, st).
Proof. intros Hc. unfold queryBgpq4ExpandedASNsCached. by rewrite Hc. Qed.

Lemma query_miss spec timeoutMs sourcesArg st :
  FLATTEN_CACHE st !! cacheKey spec sourcesArg = None →
  queryBgpq4ExpandedASNsCached spec timeoutMs sourcesArg st =
    (length (heap st),
     {| FLATTEN_CACHE :=
          <[cacheKey spec sourcesArg := length (heap st)]> (FLATTEN_CACHE st);
        heap := heap st ++
          [{| call := queryBgpq4ExpandedASNs spec timeoutMs sourcesArg;
              key := cacheKey spec sourcesArg;
              status := Pending |}] |}).
Proof. intros Hc. unfold queryBgpq4ExpandedASNsCached. by rewrite Hc. Qed.

(** Settling a promise that is pending, spelled out. *)
Lemma settle_pending h r st p :
  heap st !! h = Some p → status p = Pending →
  settle h r st =
    {| FLATTEN_CACHE :=
         match r with
         | Ok _ => FLATTEN_CACHE st
         | Err _ => delete (key p) (FLATTEN_CACHE st)
         end;
       heap := <[h := {| call := call p; key := key p;
                         status := Settled r |}]> (heap st) |}.
Proof. intros Hh Hp. unfold settle. rewrite Hh, Hp. by destruct r. Qed.

Lemma settle_settled h r st p r0 :
  heap st !! h = Some p → status p = Settled r0 → settle h r st = st.
Proof. intros Hh Hp. unfold settle. by rewrite Hh, Hp. Qed.

Lemma settle_dangling h r st :
  heap st !! h = None → settle h r st = st.
Proof. intros Hh. unfold settle. by rewrite Hh. Qed.

Lemma pending_not_failed p : status p = Pending → ¬ failed p.
Proof. intros Hs [e He]. congruence. Qed.

Lemma wf_initial : wf initial.
Proof.
  split; cbn; intros *; [rewrite lookup_empty | rewrite lookup_nil]; done.
Qed.

Lemma wf_query spec timeoutMs sourcesArg st :
  wf st → wf (queryBgpq4ExpandedASNsCached spec timeoutMs sourcesArg st).2.
Proof.
  intros [Hc Hp].
  destruct (FLATTEN_CACHE st !! cacheKey spec sourcesArg) as [h|] eqn:Hk.
  { rewrite (query_hit _ _ _ _ _ Hk). by split. }
  rewrite (query_miss _ _ _ _ Hk). cbn. split; cbn.
  - intros k h. destruct (decide (cacheKey spec sourcesArg = k)) as [<-|Hne].
    + rewrite lookup_insert_eq. intros [= <-]. eexists. split.
      * rewrite lookup_app_r by lia. by rewrite Nat.sub_diag.
      * split; [done|]. by apply pending_not_failed.
    + rewrite lookup_insert_ne by done. intros Hkh.
      destruct (Hc _ _ Hkh) as (p & Hh & Hkey & Hst).
      exists p. split_and!; try done. by apply lookup_app_l_Some.
  - intros h p Hh Hst.
    destruct (decide (h < length (heap st))%nat) as [Hlt|Hge].
    + rewrite lookup_app_l in Hh by done.
      specialize (Hp _ _ Hh Hst).
      rewrite lookup_insert_ne; [done|]. intros Heq. congruence.
    + rewrite lookup_app_r in Hh by lia.
      destruct (h - length (heap st))%nat as [|n] eqn:Hn; [|done].
      cbn in Hh. injection Hh as <-. cbn.
      rewrite lookup_insert_eq. f_equal. lia.
Qed.

Lemma wf_settle h r st : wf st → wf (settle h r st).
Proof.
  intros [Hc Hp].
  destruct (heap st !! h) as [p|] eqn:Hh;
    [|by rewrite settle_dangling; [split|]].
  destruct (status p) as [|r0] eqn:Hs;
    [|by erewrite settle_settled; [split|..]].
  rewrite (settle_pending _ _ _ _ Hh Hs).
  pose proof (lookup_lt_Some _ _ _ Hh) as Hlt.
  pose proof (Hp _ _ Hh (pending_not_failed _ Hs)) as Hown.
  split; cbn.
  - intros k h' Hk.
    assert (FLATTEN_CACHE st !! k = Some h' ∧
            (h' = h → ∃ v, r = Ok v)) as [Hk' Hr].
    { destruct r as [v|e]; [by eauto|].
      destruct (decide (key p = k)) as [<-|Hne].
      - by rewrite lookup_delete_eq in Hk.
      - rewrite lookup_delete_ne in Hk by done. split; [done|].
        intros ->. destruct (Hc _ _ Hk) as (p' & Hh' & Hkey & _).
        congruence. }
    destruct (Hc _ _ Hk') as (p' & Hh' & Hkey & Hst).
    destruct (decide (h' = h)) as [->|Hne].
    + rewrite list_lookup_insert_eq by done. eexists. split; [done|].
      cbn. split; [congruence|]. destruct (Hr eq_refl) as [v ->].
      intros [e He]. done.
    + rewrite list_lookup_insert_ne by done. eauto.
  - intros h' p' Hh' Hst'.
    destruct (decide (h' = h)) as [->|Hne].
    + rewrite list_lookup_insert_eq in Hh' by done.
      injection Hh' as <-. cbn in *.
      destruct r as [v|e]; [done|]. destruct Hst'. by exists e.
    + rewrite list_lookup_insert_ne in Hh' by done.
      pose proof (Hp _ _ Hh' Hst') as Hown'.
      destruct r as [v|e]; [done|].
      rewrite lookup_delete_ne; [done|]. intros Heq. congruence.
Qed.

Lemma wf_step st st' : step st st' → wf st → wf st'.
Proof. destruct 1; auto using wf_query, wf_settle. Qed.

Lemma wf_steps st st' : rtc step st st' → wf st → wf st'.
Proof. induction 1; eauto using wf_step. Qed.

Lemma wf_reachable st : reachable st → wf st.
Proof. intros H. exact (wf_steps _ _ H wf_initial). Qed.

Lemma reachable_steps st st' : reachable st → rtc step st st' → reachable st'.
Proof. unfold reachable. intros. by etrans. Qed.

(** A settled promise never changes again. *)
Lemma step_settled_stable st st' h p r :
  step st st' → heap st !! h = Some p → status p = Settled r →
  heap st' !! h = Some p.
Proof.
  intros Hstep Hh Hs. destruct Hstep as [spec t src st|h' r' st].
  - unfold queryBgpq4ExpandedASNsCached.
    destruct (FLATTEN_CACHE st !! _); cbn; [done|].
    by apply lookup_app_l_Some.
  - unfold settle. destruct (heap st !! h') as [p'|] eqn:Hh'; [|done].
    destruct (status p') eqn:Hs'; [|done].
    assert (h ≠ h') by (intros ->; congruence).
    destruct r'; cbn; by rewrite list_lookup_insert_ne.
Qed.

Lemma steps_settled_stable st st' h p r :
  rtc step st st' → heap st !! h = Some p → status p = Settled r →
  heap st' !! h = Some p.
Proof. induction 1; eauto using step_settled_stable. Qed.

(** No step changes the process a promise stands for. *)
Lemma step_call_stable st st' h p :
  step st st' → heap st !! h = Some p →
  ∃ p', heap st' !! h = Some p' ∧ call p' = call p.
Proof.
  intros Hstep Hh. destruct Hstep as [spec t src st|h' r st].
  - exists p. split; [|done]. unfold queryBgpq4ExpandedASNsCached.
    destruct (FLATTEN_CACHE st !! _); cbn; [done|].
    by apply lookup_app_l_Some.
  - unfold settle. destruct (heap st !! h') as [p'|] eqn:Hh'; [|by eauto].
    destruct (status p') eqn:Hs'; [|by eauto].
    destruct (decide (h = h')) as [->|Hne].
    + assert (p' = p) as -> by congruence.
      exists {| call := call p; key := key p; status := Settled r |}.
      split; [|reflexivity].
      destruct r; cbn; apply list_lookup_insert_eq; by eapply lookup_lt_Some.
    + exists p. split; [|done].
      destruct r; cbn; by rewrite list_lookup_insert_ne.
Qed.

Lemma steps_call_stable st st' h p :
  rtc step st st' → heap st !! h = Some p →
  ∃ p', heap st' !! h = Some p' ∧ call p' = call p.
Proof.
  intros Hsteps. revert p.
  induction Hsteps as [st|st st1 st' Hstep Hsteps IH]; intros p Hh; [by eauto|].
  destruct (step_call_stable _ _ _ _ Hstep Hh) as (p1 & Hh1 & Hc1).
  destruct (IH _ Hh1) as (p' & Hh' & Hc'). exists p'. split; [done|congruence].
Qed.

(** The keys under which promises were created: settling a promise leaves
    them alone, a cache miss appends one. *)
Lemma keys_settle h r st : key <$> heap (settle h r st) = key <$> heap st.
Proof.
  unfold settle. destruct (heap st !! h) as [p|] eqn:Hh; [|done].
  destruct (status p); [|done].
  assert ((key <$> heap st) !! h = Some (key p)) as Hk
    by (by rewrite list_lookup_fmap, Hh).
  destruct r; cbn; rewrite list_fmap_insert; cbn; by apply list_insert_id.
Qed.

Lemma invocations_settle k h r st :
  invocations k (settle h r st) = invocations k st.
Proof. unfold invocations. by rewrite keys_settle. Qed.

Lemma invocations_miss k spec timeoutMs sourcesArg st :
  FLATTEN_CACHE st !! cacheKey spec sourcesArg = None →
  invocations k (queryBgpq4ExpandedASNsCached spec timeoutMs sourcesArg st).2 =
    (invocations k st + if decide (cacheKey spec sourcesArg = k) then 1 else 0)%nat.
Proof.
  intros Hk. rewrite (query_miss _ _ _ _ Hk). unfold invocations. cbn.
  rewrite fmap_app, filter_app, length_app. cbn. by case_decide.
Qed.

(** One step keeps the entry of a promise that has not failed, and starts
    no second invocation under its key. *)
Lemma step_keeps_entry k h st st' :
  wf st → step st st' →
  FLATTEN_CACHE st !! k = Some h →
  (∀ p, heap st' !! h = Some p → ¬ failed p) →
  FLATTEN_CACHE st' !! k = Some h ∧ invocations k st' = invocations k st.
Proof.
  intros Hwf Hstep Hk Hlive.
  destruct Hstep as [spec t src st|h' r st].
  - destruct (FLATTEN_CACHE st !! cacheKey spec src) as [h0|] eqn:Hc.
    { by rewrite (query_hit _ _ _ _ _ Hc). }
    rewrite invocations_miss by done. rewrite (query_miss _ _ _ _ Hc). cbn.
    assert (cacheKey spec src ≠ k) by congruence.
    rewrite lookup_insert_ne by done. rewrite decide_False by done.
    split; [done|lia].
  - rewrite invocations_settle. split; [|done].
    destruct (heap st !! h') as [p'|] eqn:Hh';
      [|by rewrite settle_dangling].
    destruct (status p') as [|r0] eqn:Hs';
      [|by erewrite settle_settled].
    rewrite (settle_pending _ _ _ _ Hh' Hs') in Hlive |- *. cbn in *.
    destruct r as [v|e]; [done|].
    pose proof (wf_live _ Hwf _ _ Hh' (pending_not_failed _ Hs')) as Hown.
    destruct (decide (key p' = k)) as [<-|Hne];
      [|by rewrite lookup_delete_ne].
    assert (h = h') as -> by congruence.
    exfalso. eapply Hlive.
    + apply list_lookup_insert_eq. by eapply lookup_lt_Some.
    + by exists e.
Qed.

Lemma steps_keep_entry k h st st' :
  wf st → rtc step st st' →
  FLATTEN_CACHE st !! k = Some h →
  (∀ p, heap st' !! h = Some p → ¬ failed p) →
  FLATTEN_CACHE st' !! k = Some h ∧ invocations k st' = invocations k st.
Proof.
  intros Hwf Hsteps. revert Hwf.
  induction Hsteps as [st|st st1 st' Hstep Hsteps IH]; [done|].
  intros Hwf Hk Hlive.
  assert (∀ p, heap st1 !! h = Some p → ¬ failed p) as Hlive1.
  { intros p Hp [e He]. eapply Hlive.
    - eapply steps_settled_stable; eauto.
    - by exists e. }
  destruct (step_keeps_entry _ _ _ _ Hwf Hstep Hk Hlive1) as [Hk1 Hn1].
  destruct (IH (wf_step _ _ Hstep Hwf) Hk1 Hlive) as [Hk' Hn'].
  split; [done|congruence].
Qed.

(** The entry a call leaves under its key is the handle it returns. *)
Lemma query_entry spec timeoutMs sourcesArg st :
  let called := queryBgpq4ExpandedASNsCached spec timeoutMs sourcesArg st in
  FLATTEN_CACHE called.2 !! cacheKey spec sourcesArg = Some called.1.
Proof.
  cbn zeta.
  destruct (FLATTEN_CACHE st !! cacheKey spec sourcesArg) as [h|] eqn:Hc.
  - by rewrite (query_hit _ _ _ _ _ Hc).
  - rewrite (query_miss _ _ _ _ Hc). cbn. apply lookup_insert_eq.
Qed.

Lemma cacheKey_name_depth spec1 spec2 sourcesArg :
  name spec1 = name spec2 → depth spec1 = depth spec2 →
  cacheKey spec2 sourcesArg = cacheKey spec1 sourcesArg.
Proof. intros Hn Hd. unfold cacheKey. by rewrite Hn, Hd. Qed.

(** C1. A call of the cached query that finds an entry under its key
    returns that entry's handle and leaves the state alone: no process is
    started.  Hence two calls with the same name, depth and sources start
    exactly one adapter invocation between them.  This holds for two calls
    in a row, and for two calls with anything in between (other calls,
    processes completing), as long as the promise the first call created
    has not failed by the time of the second. *)
Theorem cached_query_deduplicates :
  (∀ st spec timeoutMs sourcesArg h,
     FLATTEN_CACHE st !! cacheKey spec sourcesArg = Some h →
     queryBgpq4ExpandedASNsCached spec timeoutMs sourcesArg st = (h, st))
  ∧
  (∀ st spec1 spec2 t1 t2 sourcesArg,
     let k := cacheKey spec1 sourcesArg in
     let first := queryBgpq4ExpandedASNsCached spec1 t1 sourcesArg st in
     let second := queryBgpq4ExpandedASNsCached spec2 t2 sourcesArg first.2 in
     name spec1 = name spec2 → depth spec1 = depth spec2 →
     FLATTEN_CACHE st !! k = None →
     second = first ∧ invocations k second.2 = S (invocations k st))
  ∧
  (∀ st st' spec1 spec2 t1 t2 sourcesArg,
     let k := cacheKey spec1 sourcesArg in
     let first := queryBgpq4ExpandedASNsCached spec1 t1 sourcesArg st in
     reachable st →
     name spec1 = name spec2 → depth spec1 = depth spec2 →
     FLATTEN_CACHE st !! k = None →
     rtc step first.2 st' →
     (∀ p, heap st' !! first.1 = Some p → ¬ failed p) →
     FLATTEN_CACHE st' !! k = Some first.1
     ∧ queryBgpq4ExpandedASNsCached spec2 t2 sourcesArg st' = (first.1, st')
     ∧ invocations k st' = S (invocations k st)).
Proof.
  split_and!; [intros; by apply query_hit| |].
  - intros st spec1 spec2 t1 t2 src k first second Hname Hdepth Hk.
    pose proof (cacheKey_name_depth _ _ src Hname Hdepth) as Hk2.
    assert (second = first) as ->.
    { unfold second. rewrite (surjective_pairing first) at 2.
      apply query_hit. rewrite Hk2. apply query_entry. }
    split; [done|]. unfold first. rewrite invocations_miss by done.
    rewrite decide_True by done. lia.
  - intros st st' spec1 spec2 t1 t2 src k first Hreach Hname Hdepth Hk
      Hsteps Hlive.
    pose proof (cacheKey_name_depth _ _ src Hname Hdepth) as Hk2.
    pose proof (wf_query spec1 t1 src st (wf_reachable _ Hreach)) as Hwf1.
    pose proof (invocations_miss k spec1 t1 src st Hk) as Hn1.
    pose proof (query_entry spec1 t1 src st) as Hk1.
    cbn zeta in Hk1. fold first k in Hwf1, Hn1, Hk1.
    destruct (steps_keep_entry _ _ _ _ Hwf1 Hsteps Hk1 Hlive) as [Hk' Hn'].
    split_and!; [done| |].
    + apply query_hit. by rewrite Hk2.
    + rewrite Hn', Hn1. unfold k. rewrite decide_True by done. lia.
Qed.

(** C2. When the adapter behind a pending promise fails, the entry of its
    key is gone in the very state in which the promise is rejected, and
    the next call under that key starts a fresh invocation.  No reachable
    state caches a failed promise, and a promise that was fulfilled keeps
    its entry whatever happens later. *)
Theorem failure_evicts_entry :
  (∀ st h p e,
     let st' := settle h (Err e) st in
     reachable st → heap st !! h = Some p → status p = Pending →
     FLATTEN_CACHE st' !! key p = None
     ∧ heap st' !! h =
         Some {| call := call p; key := key p; status := Settled (Err e) |}
     ∧ ∀ spec timeoutMs sourcesArg,
         cacheKey spec sourcesArg = key p →
         queryBgpq4ExpandedASNsCached spec timeoutMs sourcesArg st' =
           (length (heap st'),
            {| FLATTEN_CACHE :=
                 <[key p := length (heap st')]> (FLATTEN_CACHE st');
               heap := heap st' ++
                 [{| call := queryBgpq4ExpandedASNs spec timeoutMs sourcesArg;
                     key := key p;
                     status := Pending |}] |}))
  ∧
  (∀ st k h,
     reachable st → FLATTEN_CACHE st !! k = Some h →
     ∃ p, heap st !! h = Some p ∧ ¬ failed p)
  ∧
  (∀ st st' h p asns,
     reachable st → heap st !! h = Some p → status p = Settled (Ok asns) →
     rtc step st st' →
     FLATTEN_CACHE st' !! key p = Some h).
Proof.
  split_and!.
  - intros st h p e st' Hreach Hh Hs. unfold st'.
    rewrite (settle_pending _ _ _ _ Hh Hs). cbn.
    assert (delete (key p) (FLATTEN_CACHE st) !! key p = None) as Hgone
      by apply lookup_delete_eq.
    split_and!; [done| |].
    + apply list_lookup_insert_eq. by eapply lookup_lt_Some.
    + intros spec t src Hkey. rewrite query_miss; cbn; by rewrite Hkey.
  - intros st k h Hreach Hk.
    destruct (wf_cached _ (wf_reachable _ Hreach) _ _ Hk) as (p & ? & ? & ?).
    eauto.
  - intros st st' h p asns Hreach Hh Hs Hsteps.
    apply (wf_live _ (wf_reachable _ (reachable_steps _ _ Hreach Hsteps))).
    + eapply steps_settled_stable; eauto.
    + intros [e He]. congruence.
Qed.

Lemma cacheKey_determined spec1 spec2 sourcesArg1 sourcesArg2 :
  name spec1 = name spec2 →
  from_option Js.numberToString "" (depth spec1) =
    from_option Js.numberToString "" (depth spec2) →
  from_option Js.trim "" sourcesArg1 = from_option Js.trim "" sourcesArg2 →
  cacheKey spec1 sourcesArg1 = cacheKey spec2 sourcesArg2.
Proof.
  intros Hn Hd Hs. unfold cacheKey.
  change (match depth spec1 with Some d => Js.numberToString d | None => "" end)
    with (from_option Js.numberToString "" (depth spec1)).
  change (match depth spec2 with Some d => Js.numberToString d | None => "" end)
    with (from_option Js.numberToString "" (depth spec2)).
  change (match sourcesArg1 with Some s => Js.trim s | None => "" end)
    with (from_option Js.trim "" sourcesArg1).
  change (match sourcesArg2 with Some s => Js.trim s | None => "" end)
    with (from_option Js.trim "" sourcesArg2).
  by rewrite Hn, Hd, Hs.
Qed.

(** The key joins its three parts with a bar and escapes nothing, so two
    different triples can meet in one key. *)
Remark cacheKey_not_injective :
  cacheKey {| name := "AS-A|"; flat := None; depth := None; sources := None |}
    (Some "X") =
  cacheKey {| name := "AS-A"; flat := None; depth := None; sources := None |}
    (Some "|X").
Proof. reflexivity. Qed.

(** C10. The cache key is a function of the member name, the rendering of
    the depth ([""] when there is none) and the trimmed sources argument
    ([""] when there is none): neither [flat] nor the timeout enters it.
    So a second call that agrees on these three returns the handle of the
    first and changes nothing, whatever its timeout, and the process behind
    a handle the first call created runs with the timeout of the first
    call.  This holds for a second call right after the first, and for a
    later one as long as the promise has not failed in between. *)
Theorem cache_key_ignores_timeout_and_flat :
  (∀ spec1 spec2 sourcesArg1 sourcesArg2,
     name spec1 = name spec2 →
     from_option Js.numberToString "" (depth spec1) =
       from_option Js.numberToString "" (depth spec2) →
     from_option Js.trim "" sourcesArg1 = from_option Js.trim "" sourcesArg2 →
     cacheKey spec1 sourcesArg1 = cacheKey spec2 sourcesArg2)
  ∧
  (∀ st spec1 spec2 t1 t2 sourcesArg1 sourcesArg2,
     let first := queryBgpq4ExpandedASNsCached spec1 t1 sourcesArg1 st in
     name spec1 = name spec2 →
     from_option Js.numberToString "" (depth spec1) =
       from_option Js.numberToString "" (depth spec2) →
     from_option Js.trim "" sourcesArg1 = from_option Js.trim "" sourcesArg2 →
     queryBgpq4ExpandedASNsCached spec2 t2 sourcesArg2 first.2 = first
     ∧ (FLATTEN_CACHE st !! cacheKey spec1 sourcesArg1 = None →
        timeout ∘ call <$> heap first.2 !! first.1 = Some t1))
  ∧
  (∀ st st' spec1 spec2 t1 t2 sourcesArg1 sourcesArg2,
     let first := queryBgpq4ExpandedASNsCached spec1 t1 sourcesArg1 st in
     reachable st →
     name spec1 = name spec2 →
     from_option Js.numberToString "" (depth spec1) =
       from_option Js.numberToString "" (depth spec2) →
     from_option Js.trim "" sourcesArg1 = from_option Js.trim "" sourcesArg2 →
     rtc step first.2 st' →
     (∀ p, heap st' !! first.1 = Some p → ¬ failed p) →
     queryBgpq4ExpandedASNsCached spec2 t2 sourcesArg2 st' = (first.1, st')
     ∧ (FLATTEN_CACHE st !! cacheKey spec1 sourcesArg1 = None →
        timeout ∘ call <$> heap st' !! first.1 = Some t1)).
Proof.
  assert (∀ st spec1 t1 src1,
    FLATTEN_CACHE st !! cacheKey spec1 src1 = None →
    let first := queryBgpq4ExpandedASNsCached spec1 t1 src1 st in
    heap first.2 !! first.1 =
      Some {| call := queryBgpq4ExpandedASNs spec1 t1 src1;
              key := cacheKey spec1 src1; status := Pending |}) as Hnew.
  { intros st spec1 t1 src1 Hc. cbn zeta. rewrite (query_miss _ _ _ _ Hc).
    cbn. rewrite lookup_app_r by lia. by rewrite Nat.sub_diag. }
  split_and!; [apply cacheKey_determined| |].
  - intros st spec1 spec2 t1 t2 src1 src2 first Hn Hd Hs.
    pose proof (cacheKey_determined _ _ _ _ Hn Hd Hs) as Hk. split.
    + rewrite (surjective_pairing first) at 2.
      apply query_hit. rewrite <- Hk. apply query_entry.
    + intros Hc. unfold first. by rewrite (Hnew _ _ t1 _ Hc).
  - intros st st' spec1 spec2 t1 t2 src1 src2 first Hreach Hn Hd Hs
      Hsteps Hlive.
    pose proof (cacheKey_determined _ _ _ _ Hn Hd Hs) as Hk.
    pose proof (wf_query spec1 t1 src1 st (wf_reachable _ Hreach)) as Hwf1.
    pose proof (query_entry spec1 t1 src1 st) as Hk1.
    cbn zeta in Hk1. fold first in Hwf1, Hk1.
    destruct (steps_keep_entry _ _ _ _ Hwf1 Hsteps Hk1 Hlive) as [Hk' _].
    split.
    + apply query_hit. by rewrite <- Hk.
    + intros Hc.
      destruct (steps_call_stable _ _ _ _ Hsteps (Hnew _ _ t1 _ Hc))
        as (p' & Hp' & Hcall).
      fold first in Hp'. rewrite Hp'. cbn. by rewrite Hcall.
Qed.

(** ** The member specification parser *)

Lemma trimEnd_idemp s : Js.trimEnd (Js.trimEnd s) = Js.trimEnd s.
Proof.
  induction s as [|c r IH]; [done|]. cbn.
  destruct (Js.trimEnd r) as [|c' kept] eqn:Hr.
  - destruct (Js.isWhiteSpace c) eqn:Hc; [done|]. cbn. by rewrite Hc.
  - cbn -[Js.trimEnd]. change (Js.trimEnd (String c (String c' kept)))
      with (match Js.trimEnd (String c' kept) with
            | EmptyString =>
                if Js.isWhiteSpace c then EmptyString else String c EmptyString
            | kept0 => String c kept0
            end).
    by rewrite IH.
Qed.

Lemma trimStart_head s :
  Js.trimStart s = EmptyString
  ∨ ∃ c r, Js.trimStart s = String c r ∧ Js.isWhiteSpace c = false.
Proof.
  induction s as [|c r IH]; [by left|]. cbn.
  destruct (Js.isWhiteSpace c) eqn:Hc; [done|]. right. eauto.
Qed.

Lemma trim_idemp s : Js.trim (Js.trim s) = Js.trim s.
Proof.
  unfold Js.trim. destruct (trimStart_head s) as [->|(c & r & -> & Hc)]; [done|].
  assert (Js.trimStart (Js.trimEnd (String c r)) = Js.trimEnd (String c r))
    as ->; [|apply trimEnd_idemp].
  cbn. destruct (Js.trimEnd r); rewrite ?Hc; cbn; by rewrite ?Hc.
Qed.

Lemma isReserved_spec rawName :
  isReserved rawName = true ↔ rawName ∈ reservedKeys.
Proof.
  unfold isReserved. rewrite existsb_exists. split.
  - intros (k & Hin & Heq). apply String.eqb_eq in Heq as ->.
    by apply list_elem_of_In.
  - intros Hin. exists rawName. split; [by apply list_elem_of_In|].
    apply String.eqb_refl.
Qed.

(** One turn of the inner loop appends the member of the entry it visits,
    when the entry names one. *)
Lemma parseEntry_spec shared out entry :
  parseEntry (cfgFlat shared) (cfgDepth shared) (cfgSource shared) out entry =
    out ++ omap specOfEntry
      ((λ e, (e.1, override (configOf e.2) shared))
         <$> filter (λ e, e.1 ∉ reservedKeys) [entry]).
Proof.
  destruct entry as [rawName cfg]. unfold parseEntry.
  rewrite filter_cons, filter_nil. cbn [fst].
  destruct (isReserved rawName) eqn:Hres.
  { apply isReserved_spec in Hres. rewrite decide_False by tauto.
    cbn. by rewrite app_nil_r. }
  rewrite decide_True
    by (intros Hin; apply isReserved_spec in Hin; congruence).
  cbn. unfold specOfEntry. cbn [fst snd].
  destruct (Js.trim rawName) as [|c r] eqn:Hname; cbn.
  { rewrite decide_True by done. by rewrite app_nil_r. }
  rewrite decide_False by done. by destruct cfg.
Qed.

Lemma parseEntries_spec shared record out :
  fold_left (parseEntry (cfgFlat shared) (cfgDepth shared) (cfgSource shared))
    record out =
    out ++ omap specOfEntry
      ((λ e, (e.1, override (configOf e.2) shared))
         <$> filter (λ e, e.1 ∉ reservedKeys) record).
Proof.
  revert out. induction record as [|entry record IH]; intros out.
  { cbn. by rewrite app_nil_r. }
  cbn [fold_left]. rewrite IH, parseEntry_spec.
  change (entry :: record) with ([entry] ++ record).
  rewrite (filter_app _ [entry] record), fmap_app, omap_app.
  by rewrite app_assoc.
Qed.

Lemma parseItem_spec out item :
  parseItem out item = out ++ omap specOfEntry (namedEntries item).
Proof.
  destruct item as [| | | |s| |record]; cbn; try by rewrite app_nil_r.
  - unfold specOfEntry. cbn [fst snd].
    destruct (Js.trim s) as [|c r] eqn:Hname; cbn.
    + rewrite decide_True by done. by rewrite app_nil_r.
    + by rewrite decide_False.
  - apply (parseEntries_spec (configOf (Js.Object record))).
Qed.

Lemma parseItems_spec items out :
  fold_left parseItem items out = out ++ specParse items.
Proof.
  unfold specParse. revert out.
  induction items as [|item items IH]; intros out.
  { cbn. by rewrite app_nil_r. }
  cbn [fold_left]. rewrite IH, parseItem_spec.
  rewrite bind_cons, omap_app. by rewrite app_assoc.
Qed.

Lemma specOfEntry_name entry spec :
  specOfEntry entry = Some spec →
  name spec = Js.trim entry.1 ∧ name spec ≠ "".
Proof.
  unfold specOfEntry. case_decide; [done|]. by intros [= <-].
Qed.

(** C8. The parser yields, in input order, one member per named entry
    whose trimmed name is not empty: a plain string names one member with
    no configuration; a mapping names one member per key other than
    [flat], [depth] and [source], configured by the shared defaults of the
    mapping overridden by the fields present on the member's own
    configuration object; blank names and anything else are skipped.  It
    is a total function (nothing is raised), every name it returns is
    trimmed and non-empty, and the documented example parses as
    documented. *)
Theorem parseMemberSpecs_spec :
  (∀ items, parseMemberSpecs (Js.Array items) = specParse items)
  ∧ (∀ value, (∀ items, value ≠ Js.Array items) → parseMemberSpecs value = [])
  ∧ (∀ value,
       Forall (λ spec, name spec ≠ "" ∧ Js.trim (name spec) = name spec)
         (parseMemberSpecs value))
  ∧ parseMemberSpecs
      (Js.Array
         [Js.Str "AS-A";
          Js.Object
            [("AS-B",
              Js.Object [("flat", Js.Bool true); ("depth", Js.Number 2)])]])
    = [{| name := "AS-A"; flat := None; depth := None; sources := None |};
       {| name := "AS-B"; flat := Some true; depth := Some 2;
          sources := None |}].
Proof.
  assert (∀ items, parseMemberSpecs (Js.Array items) = specParse items) as Heq.
  { intros items. unfold parseMemberSpecs. by rewrite parseItems_spec. }
  split_and!; [done| | |done].
  - intros value Hne. destruct value; try done. by destruct (Hne items).
  - intros value.
    destruct value as [| | | | |items|]; try by apply Forall_nil.
    rewrite Heq. unfold specParse. apply Forall_forall. intros spec Hin.
    apply list_elem_of_omap in Hin as (entry & _ & Hspec).
    destruct (specOfEntry_name _ _ Hspec) as [Hname Hne].
    split; [done|]. rewrite Hname. apply trim_idemp.
Qed.

(** ** The bgpq4 invocation *)

Lemma length_replaceNonWord s :
  String.length (Js.replaceNonWord s) = String.length s.
Proof. induction s; cbn; congruence. Qed.

Lemma get_replaceNonWord s i :
  String.get i (Js.replaceNonWord s) = wordOrUnderscore <$> String.get i s.
Proof.
  revert i. induction s as [|c r IH]; intros i; [done|].
  destruct i; cbn; [done|apply IH].
Qed.

Lemma length_substring_0 m s :
  String.length (String.substring 0 m s) = (String.length s `min` m)%nat.
Proof.
  revert s. induction m as [|m IH]; intros s.
  { destruct s; cbn; lia. }
  destruct s as [|c r]; cbn; [done|]. by rewrite IH.
Qed.

Lemma length_sanitizeListName name :
  String.length (sanitizeListName name) = (String.length name `min` 64)%nat.
Proof.
  unfold sanitizeListName, Js.slice.
  destruct (64 <? _)%nat eqn:Hlen.
  - rewrite length_substring_0, length_replaceNonWord. done.
  - apply Nat.ltb_ge in Hlen. rewrite length_replaceNonWord in Hlen |- *. lia.
Qed.

Lemma get_sanitizeListName name i :
  (i < String.length (sanitizeListName name))%nat →
  String.get i (sanitizeListName name) =
    wordOrUnderscore <$> String.get i name.
Proof.
  intros Hi. rewrite length_sanitizeListName in Hi.
  unfold sanitizeListName, Js.slice.
  destruct (64 <? _)%nat; [|apply get_replaceNonWord].
  rewrite String.substring_correct1 by lia.
  rewrite Nat.add_0_r. apply get_replaceNonWord.
Qed.

Lemma wordOrUnderscore_word c : Js.isWordChar (wordOrUnderscore c) = true.
Proof. unfold wordOrUnderscore. by destruct (Js.isWordChar c) eqn:Hc. Qed.

Lemma bgpq4Args_spec spec sourcesArg :
  bgpq4Args spec sourcesArg =
    ["-j"; "-t"; "-h"; DEFAULT_BGPQ4_HOST; "-l"; sanitizeListName (name spec)]
    ++ sourcesFlag sourcesArg ++ depthFlag (depth spec) ++ [name spec].
Proof.
  unfold bgpq4Args, sourcesFlag, depthFlag.
  assert (∀ s, Js.truthy s && (0 <? String.length (Js.trim s))%nat =
               bool_decide (Js.trim s ≠ "")) as Htrim.
  { intros s. destruct s as [|c r]; [done|]. cbn [Js.truthy andb].
    by destruct (Js.trim (String c r)). }
  destruct sourcesArg as [s|], (depth spec) as [d|];
    rewrite ?Htrim; repeat case_decide; repeat case_bool_decide;
    try done; try (exfalso; lia);
    destruct (0 <=? d)%Z eqn:Hd; try done; lia.
Qed.

Lemma get_Some_lt s i c :
  String.get i s = Some c → (i < String.length s)%nat.
Proof.
  revert i. induction s as [|c' r IH]; intros i; [by destruct i|].
  destruct i; cbn; [lia|]. intros H. apply IH in H. lia.
Qed.

(** C9. The list label of an invocation is the member name with every
    code unit outside [[A-Za-z0-9_]] replaced by an underscore, cut to its
    first 64 code units.  The argument vector is the fixed prefix that
    carries the label, then [-S] with the trimmed sources exactly when a
    sources string with non-blank content is given, then the depth flag
    exactly when the member has a depth that is at least zero, then the
    member name. *)
Theorem bgpq4_invocation_spec spec timeoutMs sourcesArg :
  let label := sanitizeListName (name spec) in
  let started := queryBgpq4ExpandedASNs spec timeoutMs sourcesArg in
  String.length label = (String.length (name spec) `min` 64)%nat
  ∧ (∀ i, (i < String.length label)%nat →
       String.get i label = wordOrUnderscore <$> String.get i (name spec))
  ∧ (∀ i c, String.get i label = Some c → Js.isWordChar c = true)
  ∧ file started = "bgpq4"
  ∧ timeout started = timeoutMs
  ∧ args started =
      ["-j"; "-t"; "-h"; DEFAULT_BGPQ4_HOST; "-l"; label]
      ++ sourcesFlag sourcesArg ++ depthFlag (depth spec) ++ [name spec]
  ∧ (sourcesFlag sourcesArg = ["-S"; Js.trim (default "" sourcesArg)]
     ∨ sourcesFlag sourcesArg = [])
  ∧ (sourcesFlag sourcesArg ≠ [] ↔
       ∃ s, sourcesArg = Some s ∧ Js.trim s ≠ "")
  ∧ (depthFlag (depth spec) ≠ [] ↔ ∃ d, depth spec = Some d ∧ (0 ≤ d)%Z).
Proof.
  intros label started. split_and!.
  - apply length_sanitizeListName.
  - apply get_sanitizeListName.
  - intros i c Hget.
    pose proof (get_Some_lt _ _ _ Hget) as Hi. unfold label in Hget, Hi.
    rewrite get_sanitizeListName in Hget by done.
    destruct (String.get i (name spec)); [|done].
    injection Hget as <-. apply wordOrUnderscore_word.
  - done.
  - done.
  - apply bgpq4Args_spec.
  - unfold sourcesFlag. destruct sourcesArg as [s|]; [|by right].
    case_decide; [by right|by left].
  - unfold sourcesFlag. destruct sourcesArg as [s|].
    + case_decide; split; try done.
      * intros (s' & [= <-] & Hne). done.
      * intros _. by exists s.
    + split; [done|]. by intros (s & ? & _).
  - unfold depthFlag. destruct (depth spec) as [d|].
    + case_decide; split; try done.
      * intros _. by exists d.
      * intros (d' & [= <-] & Hd). done.
    + split; [done|]. by intros (d & ? & _).
Qed.

(** ** Running tasks *)

(** Case analysis on how an awaited query ends. *)
Ltac case_await :=
  match goal with
  | |- context [awaitQuery ?env ?spec ?tm ?src ?st] =>
      destruct (awaitQuery env spec tm src st) as [[?asns|?e] ?st]
  end.

(** Every task that awaits one promise sees one result: once a task has
    awaited it, any other [await] finds it settled with that result. *)
Lemma awaitPromise_shared env env' h st :
  awaitPromise env' h (awaitPromise env h st).2 = awaitPromise env h st.
Proof.
  assert (∀ st', heap st' !! h = None →
                 awaitPromise env' h st' = (Err danglingHandle, st')) as Hnone
    by (intros st' H; unfold awaitPromise; by rewrite H).
  assert (∀ st' p r, heap st' !! h = Some p → status p = Settled r →
                     awaitPromise env' h st' = (r, st')) as Hsettled
    by (intros st' p r H1 H2; unfold awaitPromise; by rewrite H1, H2).
  unfold awaitPromise at 2 3.
  destruct (heap st !! h) as [p|] eqn:Hh; [|by apply Hnone].
  destruct (status p) as [|r] eqn:Hs; cbn; [|by eapply Hsettled].
  apply (Hsettled _ {| call := call p; key := key p;
                       status := Settled (env h (call p)) |});
    [|reflexivity].
  rewrite (settle_pending _ _ _ _ Hh Hs). cbn.
  apply list_lookup_insert_eq. by eapply lookup_lt_Some.
Qed.

Lemma run_bind {A B} env (t : Task A) (f : A → Task B) st :
  run env (bind t f) st =
    match run env t st with
    | (Ok a, st1) => run env (f a) st1
    | (Err e, st1) => (Err e, st1)
    end.
Proof.
  revert st. induction t as [a|e|spec tm src k IH]; intros st; cbn; try done.
  case_await; [apply IH|done].
Qed.

Lemma queries_bind {A B} env (t : Task A) (f : A → Task B) st :
  queries env (bind t f) st =
    queries env t st ++
    match run env t st with
    | (Ok a, st1) => queries env (f a) st1
    | (Err _, _) => []
    end.
Proof.
  revert st. induction t as [a|e|spec tm src k IH]; intros st; cbn; try done.
  f_equal. case_await; [apply IH|done].
Qed.

Lemma run_awaitCached env spec tm src st :
  run env (awaitCached spec tm src) st = awaitQuery env spec tm src st.
Proof. cbn. by case_await. Qed.

Lemma queries_awaitCached env spec tm src st :
  queries env (awaitCached spec tm src) st = [(spec, tm, src)].
Proof. cbn. by case_await. Qed.

(** A sequential run moves the cache by steps of the event loop only, so
    it keeps the invariant, and the handle it awaits is always in the
    heap. *)
Lemma awaitQuery_steps env spec tm src st :
  rtc step st (awaitQuery env spec tm src st).2.
Proof.
  unfold awaitQuery.
  pose proof (step_query spec tm src st) as Hq.
  destruct (queryBgpq4ExpandedASNsCached spec tm src st) as [h st1].
  cbn in Hq. eapply rtc_l; [exact Hq|].
  unfold awaitPromise. destruct (heap st1 !! h) as [p|]; [|done].
  destruct (status p); [|done]. cbn. apply rtc_once, step_settle.
Qed.

Lemma run_steps {A} env (t : Task A) st : rtc step st (run env t st).2.
Proof.
  revert st. induction t as [a|e|spec tm src k IH]; intros st; cbn; try done.
  pose proof (awaitQuery_steps env spec tm src st) as Hq.
  destruct (awaitQuery env spec tm src st) as [[asns|e] st1]; [|done].
  etrans; [exact Hq|apply IH].
Qed.

Lemma run_reachable {A} env (t : Task A) st :
  reachable st → reachable (run env t st).2.
Proof. intros H. eapply reachable_steps; [done|apply run_steps]. Qed.

Lemma query_handle_live spec tm src st :
  wf st →
  is_Some (heap (queryBgpq4ExpandedASNsCached spec tm src st).2
             !! (queryBgpq4ExpandedASNsCached spec tm src st).1).
Proof.
  intros Hwf.
  destruct (FLATTEN_CACHE st !! cacheKey spec src) as [h|] eqn:Hk.
  - rewrite (query_hit _ _ _ _ _ Hk). cbn.
    destruct (wf_cached _ Hwf _ _ Hk) as (p & -> & _). done.
  - rewrite (query_miss _ _ _ _ Hk). cbn.
    rewrite lookup_app_r by lia. rewrite Nat.sub_diag. done.
Qed.

Lemma nonempty_length {A} (l : list A) : (0 <? length l)%nat = true ↔ l ≠ [].
Proof. destruct l; cbn; split; done. Qed.

(** The body of [flattenMemberWithBgpq4] for a member to flatten. *)
Lemma flatten_flat spec options srcs :
  flat spec = Some true →
  flattenMemberWithBgpq4 spec options srcs =
    let tm := Js.nullish (timeoutMs options) 20000 in
    let* asnsWithSources := awaitCached spec tm srcs in
    if (0 <? length asnsWithSources)%nat then Return asnsWithSources
    else
      let* asnsFallback :=
        if Js.truthyOpt srcs then awaitCached spec tm None else Return [] in
      if (0 <? length asnsFallback)%nat then Return asnsFallback
      else
        match Js.nullish (onEmpty options) keep with
        | empty => Return []
        | error => Throw (emptyExpansionError spec)
        | keep => Return [name spec]
        end.
Proof. intros Hflat. unfold flattenMemberWithBgpq4. by rewrite Hflat. Qed.

(** C5. A member that is not marked flat (the flag false or unset) passes
    through literally: the task is the plain return of its name, so it
    awaits nothing, and run from any state with any environment, options
    and sources it returns [[name]] and leaves cache and heap alone. *)
Theorem nonflat_passes_through spec options srcs :
  flat spec ≠ Some true →
  flattenMemberWithBgpq4 spec options srcs = Return [name spec]
  ∧ ∀ env st,
      run env (flattenMemberWithBgpq4 spec options srcs) st
        = (Ok [name spec], st)
      ∧ queries env (flattenMemberWithBgpq4 spec options srcs) st = [].
Proof.
  intros Hflat.
  assert (flattenMemberWithBgpq4 spec options srcs = Return [name spec]) as ->.
  { unfold flattenMemberWithBgpq4. by destruct (flat spec) as [[]|]. }
  done.
Qed.

(** C3. For a member to flatten whose primary query comes back empty: with
    a sources override (a non-empty sources string) the cached query is
    called exactly once more, with no sources, and a non-empty result of
    that retry is the result of flatten; without an override (no string,
    or the empty string) the primary query is the only one.  With
    [SOURCEX] yielding nothing and the retry yielding AS1 and AS2, flatten
    returns AS1 and AS2. *)
Theorem fallback_without_sources env spec options srcs st st1 :
  let tm := Js.nullish (timeoutMs options) 20000 in
  let task := flattenMemberWithBgpq4 spec options srcs in
  flat spec = Some true →
  awaitQuery env spec tm srcs st = (Ok [], st1) →
  (Js.truthyOpt srcs = true →
     queries env task st = [(spec, tm, srcs); (spec, tm, None)]
     ∧ (run env task st).2 = (awaitQuery env spec tm None st1).2
     ∧ ∀ asns st2,
         awaitQuery env spec tm None st1 = (Ok asns, st2) → asns ≠ [] →
         run env task st = (Ok asns, st2))
  ∧ (Js.truthyOpt srcs = false →
     queries env task st = [(spec, tm, srcs)]
     ∧ (run env task st).2 = st1)
  ∧ (srcs = Some "SOURCEX" →
     ∀ st2, awaitQuery env spec tm None st1 = (Ok ["AS1"; "AS2"], st2) →
     run env task st = (Ok ["AS1"; "AS2"], st2)).
Proof.
  intros tm task Hflat Hprimary. unfold task.
  rewrite (flatten_flat _ _ _ Hflat). cbn zeta. fold tm.
  rewrite run_bind, queries_bind, run_awaitCached, queries_awaitCached.
  rewrite Hprimary.
  change (0 <? length (@nil string))%nat with false. cbv iota.
  assert (Js.truthyOpt srcs = true →
     ∀ asns st2, awaitQuery env spec tm None st1 = (Ok asns, st2) →
     asns ≠ [] →
     run env
       (let* asnsFallback :=
          if Js.truthyOpt srcs then awaitCached spec tm None else Return [] in
        if (0 <? length asnsFallback)%nat then Return asnsFallback
        else match Js.nullish (onEmpty options) keep with
             | keep => Return [name spec]
             | empty => Return []
             | error => Throw (emptyExpansionError spec)
             end) st1 = (Ok asns, st2)) as Hretry.
  { intros Hsrc asns st2 Hr Hne. rewrite Hsrc.
    rewrite run_bind, run_awaitCached, Hr.
    apply nonempty_length in Hne. rewrite Hne. reflexivity. }
  split_and!.
  - intros Hsrc. split_and!; [| |by apply Hretry].
    + rewrite Hsrc, queries_bind, queries_awaitCached, run_awaitCached.
      destruct (awaitQuery env spec tm None st1) as [[asns|e] st2];
        cbv beta iota; [|done].
      destruct (0 <? length asns)%nat; [done|].
      by destruct (Js.nullish (onEmpty options) keep).
    + rewrite Hsrc, run_bind, run_awaitCached.
      destruct (awaitQuery env spec tm None st1) as [[asns|e] st2];
        cbv beta iota; [|done].
      destruct (0 <? length asns)%nat; [done|].
      by destruct (Js.nullish (onEmpty options) keep).
  - intros Hsrc. rewrite Hsrc. cbn.
    by destruct (Js.nullish (onEmpty options) keep).
  - intros -> st2 Hr. by apply Hretry.
Qed.

(** C4. For a member to flatten whose adapter calls all come back empty
    (the primary query, and the retry without sources when there is a
    sources override), the empty-result policy decides: [keep], the
    default, returns the member name alone; [empty] returns nothing;
    [error] throws an error whose message names the member. *)
Theorem empty_policy_decides env spec options srcs st st1 st2 :
  let tm := Js.nullish (timeoutMs options) 20000 in
  flat spec = Some true →
  awaitQuery env spec tm srcs st = (Ok [], st1) →
  (if Js.truthyOpt srcs
   then awaitQuery env spec tm None st1 = (Ok [], st2)
   else st2 = st1) →
  run env (flattenMemberWithBgpq4 spec options srcs) st =
    (match Js.nullish (onEmpty options) keep with
     | keep => Ok [name spec]
     | empty => Ok []
     | error =>
         Err (Js.MkError
                ("bgpq4 returned empty expansion for " +:+ name spec))
     end, st2).
Proof.
  intros tm Hflat Hprimary Hretry.
  rewrite (flatten_flat _ _ _ Hflat). cbn zeta. fold tm.
  rewrite run_bind, run_awaitCached, Hprimary.
  change (0 <? length (@nil string))%nat with false. cbv iota.
  rewrite run_bind. destruct (Js.truthyOpt srcs).
  - rewrite run_awaitCached, Hretry. cbn.
    by destruct (Js.nullish (onEmpty options) keep).
  - subst st2. cbn. by destruct (Js.nullish (onEmpty options) keep).
Qed.

(** ** Resolving a member list *)

Lemma elem_of_fold_setAdd out seen x :
  x ∈ fold_left setAdd out seen ↔ x ∈ seen ∨ x ∈ out.
Proof.
  revert seen. induction out as [|y out IH]; intros seen; cbn.
  { rewrite elem_of_nil. tauto. }
  rewrite IH, elem_of_cons. unfold setAdd. case_bool_decide.
  - split; [tauto|]. intros [?|[->|?]]; tauto.
  - rewrite elem_of_app, list_elem_of_singleton. tauto.
Qed.

Lemma NoDup_fold_setAdd out seen :
  NoDup seen → NoDup (fold_left setAdd out seen).
Proof.
  revert seen. induction out as [|y out IH]; intros seen Hseen; [done|].
  cbn. apply IH. unfold setAdd. case_bool_decide; [done|].
  apply NoDup_app. split_and!; [done| |apply NoDup_singleton].
  intros x Hx ->%list_elem_of_singleton. done.
Qed.

Lemma elem_of_arrayFromSet out x : x ∈ arrayFromSet out ↔ x ∈ out.
Proof.
  unfold arrayFromSet. rewrite elem_of_fold_setAdd, elem_of_nil. tauto.
Qed.

Lemma NoDup_arrayFromSet out : NoDup (arrayFromSet out).
Proof. apply NoDup_fold_setAdd, NoDup_nil_2. Qed.

(** The loop of [resolveMembers] flattens the members one by one and
    pushes what each returns. *)
Lemma run_resolveLoop env specs options srcs out st :
  run env (resolveLoop specs options srcs out) st =
    match flattenEach env specs options srcs st with
    | (Ok results, st') => (Ok (arrayFromSet (out ++ mjoin results)), st')
    | (Err e, st') => (Err e, st')
    end.
Proof.
  revert out st. induction specs as [|spec rest IH]; intros out st.
  { cbn. by rewrite app_nil_r. }
  cbn [resolveLoop flattenEach]. rewrite run_bind.
  destruct (run env (flattenMemberWithBgpq4 spec options _) st)
    as [[resolved|e] st1]; [|done].
  rewrite IH.
  destruct (flattenEach env rest options srcs st1) as [[others|e] st2];
    [|done].
  cbn [mjoin list_join]. by rewrite app_assoc.
Qed.

Lemma flattenEach_app env pre post options srcs st :
  flattenEach env (pre ++ post) options srcs st =
    match flattenEach env pre options srcs st with
    | (Ok results, st1) =>
        match flattenEach env post options srcs st1 with
        | (Ok others, st2) => (Ok (results ++ others), st2)
        | (Err e, st2) => (Err e, st2)
        end
    | (Err e, st1) => (Err e, st1)
    end.
Proof.
  revert st. induction pre as [|spec pre IH]; intros st.
  { cbn. by destruct (flattenEach env post options srcs st) as [[?|?] ?]. }
  cbn [app flattenEach].
  destruct (run env (flattenMemberWithBgpq4 spec options _) st)
    as [[resolved|e] st1]; [|done].
  rewrite IH.
  destruct (flattenEach env pre options srcs st1) as [[results|e] st2];
    [|done].
  by destruct (flattenEach env post options srcs st2) as [[?|?] ?].
Qed.

Lemma queries_resolveLoop_fail env pre spec post options srcs out st
    results st1 e st2 :
  flattenEach env pre options srcs st = (Ok results, st1) →
  run env (flattenMemberWithBgpq4 spec options
             (Js.nullishOpt (sources spec) srcs)) st1 = (Err e, st2) →
  queries env (resolveLoop (pre ++ spec :: post) options srcs out) st =
    queries env (resolveLoop (pre ++ [spec]) options srcs out) st.
Proof.
  revert out st results. induction pre as [|s pre IH]; intros out st results.
  - cbn [flattenEach app resolveLoop]. intros [= <- <-] Hfail.
    rewrite !queries_bind, Hfail. done.
  - cbn [flattenEach app resolveLoop]. rewrite !queries_bind.
    destruct (run env (flattenMemberWithBgpq4 s options _) st)
      as [[resolved|e'] st']; [|done].
    destruct (flattenEach env pre options srcs st') as [[rs|e'] st''] eqn:Hpre;
      [|done].
    intros [= <- <-] Hfail. f_equal. by eapply IH.
Qed.

(** C6. Whatever [resolveMembers] returns holds, each once, exactly the
    strings that occur in the result of flattening some member of the list
    on its own, with the member's sources override or else the default
    sources; and it does return whenever every member flattens. *)
Theorem resolve_is_union env specs options srcs st :
  (∀ out st',
     run env (resolveMembers specs options srcs) st = (Ok out, st') →
     ∃ results,
       flattenEach env specs options srcs st = (Ok results, st')
       ∧ NoDup out
       ∧ ∀ x, x ∈ out ↔ ∃ resolved, resolved ∈ results ∧ x ∈ resolved)
  ∧
  (∀ results st',
     flattenEach env specs options srcs st = (Ok results, st') →
     run env (resolveMembers specs options srcs) st =
       (Ok (arrayFromSet (mjoin results)), st')).
Proof.
  unfold resolveMembers. rewrite run_resolveLoop. split.
  - intros out st'.
    destruct (flattenEach env specs options srcs st) as [[results|e] st1];
      [|done].
    intros [= <- <-]. exists results.
    split_and!; [done|apply NoDup_arrayFromSet|].
    intros x. rewrite elem_of_arrayFromSet, list_elem_of_join.
    split; intros (resolved & ? & ?); eauto.
  - intros results st' ->. done.
Qed.

(** C7. [resolveMembers] takes the members in input order and stops at
    the first one whose flatten throws: the error is the one flatten threw,
    the state is the one flatten left, and the queries made are those of
    the list cut after the failing member, whatever follows it. *)
Theorem resolve_fails_fast env pre spec post options srcs st results st1 e st2 :
  flattenEach env pre options srcs st = (Ok results, st1) →
  run env (flattenMemberWithBgpq4 spec options
             (Js.nullishOpt (sources spec) srcs)) st1 = (Err e, st2) →
  run env (resolveMembers (pre ++ spec :: post) options srcs) st = (Err e, st2)
  ∧ queries env (resolveMembers (pre ++ spec :: post) options srcs) st =
      queries env (resolveMembers (pre ++ [spec]) options srcs) st.
Proof.
  intros Hpre Hfail. split.
  - unfold resolveMembers. rewrite run_resolveLoop, flattenEach_app, Hpre.
    cbn [flattenEach]. by rewrite Hfail.
  - by eapply queries_resolveLoop_fail.
Qed.

(** * Worked instances *)

Lemma cached_query_deduplicates_witness :
  let first := queryBgpq4ExpandedASNsCached asFoo 20000 (Some "RADB") initial in
  let st' := settle 0 (Ok ["AS100"]) first.2 in
  first.1 = 0%nat
  ∧ queryBgpq4ExpandedASNsCached asFooPlain 5 (Some "RADB") first.2 = first
  ∧ invocations "AS-FOO|1|RADB" first.2 = 1%nat
  ∧ FLATTEN_CACHE st' !! "AS-FOO|1|RADB" = Some 0%nat
  ∧ queryBgpq4ExpandedASNsCached asFooPlain 5 (Some "RADB") st' = (0%nat, st')
  ∧ invocations "AS-FOO|1|RADB" st' = 1%nat.
Proof.
  intros first st'. split; [reflexivity|].
  destruct cached_query_deduplicates as (_ & Hrow & Hlater).
  destruct (Hrow initial asFoo asFooPlain 20000 5 (Some "RADB")
              eq_refl eq_refl) as [Hsame Hone]; [vm_compute; reflexivity|].
  split; [exact Hsame|]. split; [rewrite Hsame in Hone; exact Hone|].
  apply (Hlater initial st' asFoo asFooPlain 20000 5 (Some "RADB")).
  - apply rtc_refl.
  - reflexivity.
  - reflexivity.
  - vm_compute. reflexivity.
  - apply rtc_once, step_settle.
  - intros p Hp [e He]. vm_compute in Hp. injection Hp as <-. discriminate He.
Defined.

Lemma failure_evicts_entry_witness :
  let st := (queryBgpq4ExpandedASNsCached asFoo 20000 None initial).2 in
  let st' := settle 0 (Err toolFailure) st in
  FLATTEN_CACHE st !! "AS-FOO|1|" = Some 0%nat
  ∧ FLATTEN_CACHE st' !! "AS-FOO|1|" = None
  ∧ (queryBgpq4ExpandedASNsCached asFoo 20000 None st').1 = 1%nat
  ∧ invocations "AS-FOO|1|" (queryBgpq4ExpandedASNsCached asFoo 20000 None st').2
    = 2%nat
  ∧ (∃ p, heap st !! 0%nat = Some p ∧ ¬ failed p)
  ∧ FLATTEN_CACHE
      (queryBgpq4ExpandedASNsCached asBaz 20000 None
         (settle 0 (Ok ["AS100"]) st)).2 !! "AS-FOO|1|" = Some 0%nat.
Proof.
  intros st st'. unfold st'.
  assert (reachable st) as Hreach by apply rtc_once, step_query.
  destruct failure_evicts_entry as (Hfail & Hcached & Hkept).
  pose (p := {| call := queryBgpq4ExpandedASNs asFoo 20000 None;
                key := "AS-FOO|1|"; status := Pending |}).
  destruct (Hfail st 0%nat p toolFailure Hreach eq_refl eq_refl)
    as (Hgone & _ & Hfresh).
  split; [vm_compute; reflexivity|].
  split; [exact Hgone|].
  split; [by rewrite (Hfresh asFoo 20000 None eq_refl)|].
  split; [rewrite (Hfresh asFoo 20000 None eq_refl); vm_compute; reflexivity|].
  split; [apply (Hcached st "AS-FOO|1|" 0%nat Hreach); vm_compute; reflexivity|].
  apply (Hkept (settle 0 (Ok ["AS100"]) st) _ 0%nat
           {| call := queryBgpq4ExpandedASNs asFoo 20000 None;
              key := "AS-FOO|1|"; status := Settled (Ok ["AS100"]) |}
           ["AS100"]).
  - eapply reachable_steps; [exact Hreach|]. apply rtc_once, step_settle.
  - vm_compute. reflexivity.
  - reflexivity.
  - apply rtc_once, step_query.
Defined.

Lemma cache_key_ignores_timeout_and_flat_witness :
  let first := queryBgpq4ExpandedASNsCached asFoo 20000 (Some " RADB ") initial in
  let st' := settle 0 (Ok ["AS100"]) first.2 in
  cacheKey asFoo (Some " RADB ") = cacheKey asFooPlain (Some "RADB")
  ∧ queryBgpq4ExpandedASNsCached asFooPlain 5 (Some "RADB") first.2 = first
  ∧ timeout ∘ call <$> heap first.2 !! first.1 = Some 20000
  ∧ queryBgpq4ExpandedASNsCached asFooPlain 5 (Some "RADB") st' = (0%nat, st')
  ∧ timeout ∘ call <$> heap st' !! 0%nat = Some 20000.
Proof.
  intros first st'.
  destruct cache_key_ignores_timeout_and_flat as (Hkey & Hrow & Hlater).
  split; [apply Hkey; reflexivity|].
  destruct (Hrow initial asFoo asFooPlain 20000 5
              (Some " RADB ") (Some "RADB") eq_refl eq_refl eq_refl)
    as [Hsame Htimeout].
  split; [exact Hsame|].
  split; [apply Htimeout; vm_compute; reflexivity|].
  destruct (Hlater initial st' asFoo asFooPlain 20000 5
              (Some " RADB ") (Some "RADB"))
    as [Hsame' Htimeout'].
  - apply rtc_refl.
  - reflexivity.
  - reflexivity.
  - reflexivity.
  - apply rtc_once, step_settle.
  - intros p Hp [e He]. vm_compute in Hp. injection Hp as <-. discriminate He.
  - split; [exact Hsame'|]. apply Htimeout'. vm_compute. reflexivity.
Defined.

Lemma fallback_without_sources_witness :
  let task := flattenMemberWithBgpq4 asFoo defaultOptions (Some "SOURCEX") in
  (run envSourceX task initial).1 = Ok ["AS1"; "AS2"]
  ∧ queries envSourceX task initial =
      [(asFoo, 20000, Some "SOURCEX"); (asFoo, 20000, None)]
  ∧ queries envEmpty (flattenMemberWithBgpq4 asFoo defaultOptions None)
      initial = [(asFoo, 20000, None)].
Proof.
  intros task.
  pose (st1 := (awaitQuery envSourceX asFoo 20000 (Some "SOURCEX") initial).2).
  pose (st2 := (awaitQuery envSourceX asFoo 20000 None st1).2).
  destruct (fallback_without_sources envSourceX asFoo defaultOptions
              (Some "SOURCEX") initial st1 eq_refl)
    as (Hwith & _ & Hexample); [vm_compute; reflexivity|].
  destruct (Hwith eq_refl) as (Hqueries & _ & _).
  split.
  - unfold task. rewrite (Hexample eq_refl st2); [reflexivity|].
    vm_compute. reflexivity.
  - split; [exact Hqueries|].
    pose (st0 := (awaitQuery envEmpty asFoo 20000 None initial).2).
    destruct (fallback_without_sources envEmpty asFoo defaultOptions
                None initial st0 eq_refl)
      as (_ & Hwithout & _); [vm_compute; reflexivity|].
    apply (Hwithout eq_refl).
Defined.

Lemma empty_policy_decides_witness :
  (run envEmpty (flattenMemberWithBgpq4 asFoo defaultOptions (Some "RADB"))
     initial).1 = Ok ["AS-FOO"]
  ∧ (run envEmpty (flattenMemberWithBgpq4 asFoo (withOnEmpty keep) None)
       initial).1 = Ok ["AS-FOO"]
  ∧ (run envEmpty (flattenMemberWithBgpq4 asFoo (withOnEmpty empty) None)
       initial).1 = Ok []
  ∧ (run envEmpty (flattenMemberWithBgpq4 asFoo (withOnEmpty error) None)
       initial).1 =
      Err (Js.MkError "bgpq4 returned empty expansion for AS-FOO").
Proof.
  pose (st1 := (awaitQuery envEmpty asFoo 20000 (Some "RADB") initial).2).
  pose (st2 := (awaitQuery envEmpty asFoo 20000 None st1).2).
  pose (st0 := (awaitQuery envEmpty asFoo 20000 None initial).2).
  split_and!.
  - rewrite (empty_policy_decides envEmpty asFoo defaultOptions (Some "RADB")
               initial st1 st2 eq_refl); [reflexivity| |];
      vm_compute; reflexivity.
  - rewrite (empty_policy_decides envEmpty asFoo (withOnEmpty keep) None
               initial st0 st0 eq_refl); [reflexivity| |];
      vm_compute; reflexivity.
  - rewrite (empty_policy_decides envEmpty asFoo (withOnEmpty empty) None
               initial st0 st0 eq_refl); [reflexivity| |];
      vm_compute; reflexivity.
  - rewrite (empty_policy_decides envEmpty asFoo (withOnEmpty error) None
               initial st0 st0 eq_refl); [reflexivity| |];
      vm_compute; reflexivity.
Defined.

Lemma nonflat_passes_through_witness :
  flat asBar ≠ Some true
  ∧ flattenMemberWithBgpq4 asBar (withOnEmpty error) (Some "RADB") =
      Return ["AS-BAR"]
  ∧ run envFailing (flattenMemberWithBgpq4 asFooPlain defaultOptions None)
      initial = (Ok ["AS-FOO"], initial).
Proof.
  assert (flat asBar ≠ Some true) as Hbar by discriminate.
  assert (flat asFooPlain ≠ Some true) as Hfoo by discriminate.
  split; [exact Hbar|]. split.
  - exact (proj1 (nonflat_passes_through asBar (withOnEmpty error)
                    (Some "RADB") Hbar)).
  - exact (proj1 (proj2 (nonflat_passes_through asFooPlain defaultOptions
                           None Hfoo) envFailing initial)).
Defined.

Lemma resolve_is_union_witness :
  let task := resolveMembers [asFoo; asBar] defaultOptions (Some "ARIN") in
  (run envScenario task initial).1 = Ok ["AS100"; "AS200"; "AS-BAR"]
  ∧ ∃ results,
      (flattenEach envScenario [asFoo; asBar] defaultOptions (Some "ARIN")
         initial).1 = Ok results
      ∧ ∀ x, x ∈ ["AS100"; "AS200"; "AS-BAR"] ↔
          ∃ resolved, resolved ∈ results ∧ x ∈ resolved.
Proof.
  intros task.
  pose (st' := (flattenEach envScenario [asFoo; asBar] defaultOptions
                  (Some "ARIN") initial).2).
  destruct (resolve_is_union envScenario [asFoo; asBar] defaultOptions
              (Some "ARIN") initial) as [Hout Hrun].
  assert (run envScenario task initial =
            (Ok ["AS100"; "AS200"; "AS-BAR"], st')) as Hres.
  { unfold task.
    rewrite (Hrun [["AS100"; "AS200"]; ["AS-BAR"]] st');
      vm_compute; reflexivity. }
  split; [by rewrite Hres|].
  destruct (Hout _ _ Hres) as (results & Heach & _ & Hunion).
  exists results. split; [by rewrite Heach|exact Hunion].
Defined.

Lemma resolve_fails_fast_witness :
  run envFailing (resolveMembers [asBar; asFoo; asBaz] defaultOptions None)
    initial =
    (Err toolFailure,
     (run envFailing (flattenMemberWithBgpq4 asFoo defaultOptions None)
        initial).2)
  ∧ queries envFailing
      (resolveMembers [asBar; asFoo; asBaz] defaultOptions None) initial =
    queries envFailing
      (resolveMembers [asBar; asFoo] defaultOptions None) initial.
Proof.
  apply (resolve_fails_fast envFailing [asBar] asFoo [asBaz] defaultOptions
           None initial [["AS-BAR"]] initial toolFailure).
  - reflexivity.
  - vm_compute. reflexivity.
Defined.

Lemma parseMemberSpecs_spec_witness :
  (∀ items, Js.Str "AS-A" ≠ Js.Array items)
  ∧ parseMemberSpecs (Js.Str "AS-A") = []
  ∧ parseMemberSpecs
      (Js.Array
         [Js.Str "  ";
          Js.Object
            [("flat", Js.Bool true); ("source", Js.Str " RADB ");
             ("AS-C", Js.Null);
             ("AS-D", Js.Object [("flat", Js.Bool false)])]])
    = [{| name := "AS-C"; flat := Some true; depth := None;
          sources := Some "RADB" |};
       {| name := "AS-D"; flat := Some false; depth := None;
          sources := Some "RADB" |}].
Proof.
  destruct parseMemberSpecs_spec as (Harray & Hother & _ & _).
  assert (∀ items, Js.Str "AS-A" ≠ Js.Array items) as Hne by discriminate.
  split; [exact Hne|]. split; [exact (Hother _ Hne)|].
  rewrite Harray. vm_compute. reflexivity.
Defined.

Lemma bgpq4_invocation_spec_witness :
  (2 < String.length (sanitizeListName "AS-FOO:CUSTOMERS"))%nat
  ∧ String.get 2 (sanitizeListName "AS-FOO:CUSTOMERS") = Some "_"%char
  ∧ args (queryBgpq4ExpandedASNs asFoo 20000 (Some " RADB,ARIN ")) =
      ["-j"; "-t"; "-h"; "whois.radb.net"; "-l"; "AS_FOO";
       "-S"; "RADB,ARIN"; "-L"; "1"; "AS-FOO"].
Proof.
  pose (customers := {| name := "AS-FOO:CUSTOMERS"; flat := Some true;
                        depth := None; sources := None |}).
  destruct (bgpq4_invocation_spec customers 20000 None)
    as (_ & Hget & _).
  destruct (bgpq4_invocation_spec asFoo 20000 (Some " RADB,ARIN "))
    as (_ & _ & _ & _ & _ & Hargs & _).
  assert (2 < String.length (sanitizeListName "AS-FOO:CUSTOMERS"))%nat as Hlt
    by (vm_compute; lia).
  split; [exact Hlt|]. split.
  - exact (eq_trans (Hget 2%nat Hlt) eq_refl).
  - exact (eq_trans Hargs eq_refl).
Defined.

(** * Further properties of the resolver *)

(** ** Flattening one member *)

(** X1. When the primary query of a member to flatten comes back with
    members, flatten returns them unchanged and asks nothing else. *)
Theorem flatten_returns_primary env spec options srcs st asns st1 :
  let tm := Js.nullish (timeoutMs options) 20000 in
  let task := flattenMemberWithBgpq4 spec options srcs in
  flat spec = Some true →
  awaitQuery env spec tm srcs st = (Ok asns, st1) →
  asns ≠ [] →
  run env task st = (Ok asns, st1)
  ∧ queries env task st = [(spec, tm, srcs)].
Proof.
  intros tm task Hflat Hprimary Hne. unfold task.
  rewrite (flatten_flat _ _ _ Hflat). cbn zeta. fold tm.
  rewrite run_bind, queries_bind, run_awaitCached, queries_awaitCached.
  rewrite Hprimary. apply nonempty_length in Hne. by rewrite Hne.
Qed.

(** X2. The retry without sources answers an empty result only, never a
    failure: when the primary query fails, flatten fails with that error
    after this one query, whatever the sources and the empty-result
    policy; and when the retry fails, flatten fails with the error of the
    retry, the policy unconsulted. *)
Theorem flatten_propagates_failure env spec options srcs st e st1 :
  let tm := Js.nullish (timeoutMs options) 20000 in
  let task := flattenMemberWithBgpq4 spec options srcs in
  flat spec = Some true →
  (awaitQuery env spec tm srcs st = (Err e, st1) →
     run env task st = (Err e, st1)
     ∧ queries env task st = [(spec, tm, srcs)])
  ∧ (∀ st0,
       awaitQuery env spec tm srcs st = (Ok [], st0) →
       Js.truthyOpt srcs = true →
       awaitQuery env spec tm None st0 = (Err e, st1) →
       run env task st = (Err e, st1)).
Proof.
  intros tm task Hflat. unfold task.
  rewrite (flatten_flat _ _ _ Hflat). cbn zeta. fold tm.
  rewrite run_bind, queries_bind, run_awaitCached, queries_awaitCached.
  split.
  - intros Hprimary. by rewrite Hprimary.
  - intros st0 Hprimary Hsrc Hretry. rewrite Hprimary.
    change (0 <? length (@nil string))%nat with false. cbv iota.
    by rewrite Hsrc, run_bind, run_awaitCached, Hretry.
Qed.

(** ** Memoization *)

Lemma awaitQuery_ok_cached env spec tm src st asns st1 :
  wf st →
  awaitQuery env spec tm src st = (Ok asns, st1) →
  ∃ h p, FLATTEN_CACHE st1 !! cacheKey spec src = Some h
         ∧ heap st1 !! h = Some p ∧ status p = Settled (Ok asns).
Proof.
  intros Hwf. unfold awaitQuery.
  pose proof (wf_query spec tm src st Hwf) as Hwf1.
  pose proof (query_entry spec tm src st) as Hk. cbn zeta in Hk.
  destruct (queryBgpq4ExpandedASNsCached spec tm src st) as [h st0].
  cbn in Hwf1, Hk. unfold awaitPromise.
  destruct (wf_cached _ Hwf1 _ _ Hk) as (p & Hh & Hkey & Hlive).
  rewrite Hh. destruct (status p) as [|r] eqn:Hs.
  - intros [= Hr <-]. rewrite (settle_pending _ _ _ _ Hh Hs), Hr. cbn.
    exists h, {| call := call p; key := key p; status := Settled (Ok asns) |}.
    split_and!; [exact Hk| |reflexivity].
    apply list_lookup_insert_eq. by eapply lookup_lt_Some.
  - intros [= -> <-]. by exists h, p.
Qed.

Lemma awaitQuery_replay env spec tm src st h p asns :
  FLATTEN_CACHE st !! cacheKey spec src = Some h →
  heap st !! h = Some p → status p = Settled (Ok asns) →
  awaitQuery env spec tm src st = (Ok asns, st).
Proof.
  intros Hk Hh Hs. unfold awaitQuery. rewrite (query_hit _ _ _ _ _ Hk).
  unfold awaitPromise. by rewrite Hh, Hs.
Qed.

Lemma fulfilled_stays_cached st st' h p asns :
  wf st → rtc step st st' →
  heap st !! h = Some p → status p = Settled (Ok asns) →
  FLATTEN_CACHE st' !! key p = Some h ∧ heap st' !! h = Some p.
Proof.
  intros Hwf Hsteps Hh Hs.
  pose proof (steps_settled_stable _ _ _ _ _ Hsteps Hh Hs) as Hh'.
  split; [|done].
  apply (wf_live _ (wf_steps _ _ Hsteps Hwf) _ _ Hh').
  intros [e He]. congruence.
Qed.

Lemma run_replay_steps {A} env env' (t : Task A) st st' st'' a :
  wf st →
  run env t st = (Ok a, st') →
  rtc step st' st'' →
  run env' t st'' = (Ok a, st'').
Proof.
  revert st. induction t as [a0|e|spec tm src k IH]; intros st Hwf; cbn.
  - by intros [= -> ->] _.
  - done.
  - destruct (awaitQuery env spec tm src st) as [[asns|e] st1] eqn:Hq; [|done].
    intros Hrun Hsteps.
    pose proof (awaitQuery_steps env spec tm src st) as Hst1.
    rewrite Hq in Hst1. cbn in Hst1.
    pose proof (wf_steps _ _ Hst1 Hwf) as Hwf1.
    destruct (awaitQuery_ok_cached _ _ _ _ _ _ _ Hwf Hq)
      as (h & p & Hk & Hh & Hs).
    assert (rtc step st1 st'') as Hlater.
    { etrans; [|exact Hsteps].
      pose proof (run_steps env (k asns) st1) as H. by rewrite Hrun in H. }
    destruct (fulfilled_stays_cached _ _ _ _ _ Hwf1 Hlater Hh Hs)
      as [Hk'' Hh''].
    destruct (wf_cached _ Hwf1 _ _ Hk) as (p0 & Hh0 & Hkey & _).
    assert (p0 = p) as -> by congruence. rewrite Hkey in Hk''.
    rewrite (awaitQuery_replay env' _ tm _ _ _ _ _ Hk'' Hh'' Hs).
    by eapply IH.
Qed.

(** X3. What a run of flatten or of resolve has returned is memoized for
    the life of the process: run again later, after any other calls and
    completions and against any behaviour of the tool, it returns the same
    value and leaves cache and heap as they are, so it starts no
    process. *)
Theorem successful_run_is_memoized env env' spec specs options srcs st st' st'' :
  reachable st →
  rtc step st' st'' →
  (∀ asns,
     run env (flattenMemberWithBgpq4 spec options srcs) st = (Ok asns, st') →
     run env' (flattenMemberWithBgpq4 spec options srcs) st''
       = (Ok asns, st''))
  ∧ (∀ out,
     run env (resolveMembers specs options srcs) st = (Ok out, st') →
     run env' (resolveMembers specs options srcs) st'' = (Ok out, st'')).
Proof.
  intros Hreach Hsteps.
  split; intros r Hrun;
    exact (run_replay_steps env env' _ st st' st'' r
             (wf_reachable _ Hreach) Hrun Hsteps).
Qed.

(** X4. A query that ends in a failure leaves nothing under its key:
    asking again starts exactly one new process under that key, and the
    answer is the outcome of that new process, not the earlier error. *)
Theorem failed_query_is_retried env env' spec tm src st e st' :
  let k := cacheKey spec src in
  reachable st →
  awaitQuery env spec tm src st = (Err e, st') →
  FLATTEN_CACHE st' !! k = None
  ∧ invocations k
      (queryBgpq4ExpandedASNsCached spec tm src st').2 = S (invocations k st')
  ∧ (awaitQuery env' spec tm src st').1 =
      env' (length (heap st')) (queryBgpq4ExpandedASNs spec tm src).
Proof.
  intros k Hreach. pose proof (wf_reachable _ Hreach) as Hwf.
  unfold awaitQuery at 1.
  pose proof (wf_query spec tm src st Hwf) as Hwf1.
  pose proof (query_entry spec tm src st) as Hk. cbn zeta in Hk.
  destruct (queryBgpq4ExpandedASNsCached spec tm src st) as [h st0].
  cbn in Hwf1, Hk. unfold awaitPromise at 1.
  destruct (wf_cached _ Hwf1 _ _ Hk) as (p & Hh & Hkey & Hlive).
  rewrite Hh. destruct (status p) as [|r] eqn:Hs.
  - intros [= Hr <-].
    assert (FLATTEN_CACHE (settle h (env h (call p)) st0) !! k = None)
      as Hgone.
    { rewrite (settle_pending _ _ _ _ Hh Hs), Hr. cbn.
      rewrite Hkey. apply lookup_delete_eq. }
    split_and!; [done| |].
    + rewrite invocations_miss by done. rewrite decide_True by done. lia.
    + unfold awaitQuery. rewrite (query_miss _ _ _ _ Hgone).
      unfold awaitPromise. cbn [heap].
      rewrite lookup_app_r by lia. by rewrite Nat.sub_diag.
  - intros [= -> <-]. destruct Hlive. by exists e.
Qed.

(** ** Resolving a list with nothing to flatten *)

Lemma arrayFromSet_app_NoDup seen out :
  NoDup (seen ++ out) → fold_left setAdd out seen = seen ++ out.
Proof.
  revert seen. induction out as [|x out IH]; intros seen Hnd; cbn.
  { by rewrite app_nil_r. }
  assert (x ∉ seen) as Hx.
  { apply NoDup_app in Hnd as (_ & Hdisj & _). intros Hin.
    apply (Hdisj _ Hin). by left. }
  unfold setAdd at 2. rewrite bool_decide_false by done.
  rewrite IH; rewrite <- app_assoc; done.
Qed.

Lemma flatten_nonflat spec options srcs :
  flat spec ≠ Some true →
  flattenMemberWithBgpq4 spec options srcs = Return [name spec].
Proof. intros Hflat. unfold flattenMemberWithBgpq4. by destruct (flat spec) as [[]|]. Qed.

Lemma resolveLoop_nonflat env specs options srcs out st :
  Forall (λ spec, flat spec ≠ Some true) specs →
  run env (resolveLoop specs options srcs out) st =
    (Ok (arrayFromSet (out ++ (name <$> specs))), st)
  ∧ queries env (resolveLoop specs options srcs out) st = [].
Proof.
  intros Hall. revert out.
  induction Hall as [|spec rest Hflat _ IH]; intros out.
  { cbn. by rewrite app_nil_r. }
  cbn [resolveLoop]. rewrite run_bind, queries_bind.
  rewrite (flatten_nonflat _ _ _ Hflat). cbn [run queries app].
  destruct (IH (out ++ [name spec])) as [-> ->].
  by rewrite <- app_assoc.
Qed.

(** X5. A list in which no member is marked flat resolves to its names,
    first occurrences in input order, without a single query and without
    touching cache or heap; when the names are distinct the list of names
    comes back as it is. *)
Theorem resolve_without_flat_members env specs options srcs st :
  Forall (λ spec, flat spec ≠ Some true) specs →
  run env (resolveMembers specs options srcs) st =
    (Ok (arrayFromSet (name <$> specs)), st)
  ∧ queries env (resolveMembers specs options srcs) st = []
  ∧ (NoDup (name <$> specs) →
     run env (resolveMembers specs options srcs) st =
       (Ok (name <$> specs), st)).
Proof.
  intros Hall. unfold resolveMembers.
  destruct (resolveLoop_nonflat env specs options srcs [] st Hall)
    as [Hrun Hq].
  cbn [app] in Hrun. split_and!; [done|done|].
  intros Hnd. rewrite Hrun. unfold arrayFromSet.
  by rewrite (arrayFromSet_app_NoDup [] (name <$> specs)).
Qed.

(** * The cache key and the adapter output *)

Lemma every_pretty_N_go test x s :
  (∀ n, test (pretty_N_char n) = true) →
  every test s = true → every test (pretty_N_go x s) = true.
Proof.
  intros Hdigit. revert s.
  induction (N.lt_wf_0 x) as [x _ IH]; intros s Hs.
  destruct (decide (x = 0)%N) as [->|Hx]; [by rewrite pretty_N_go_0|].
  rewrite pretty_N_go_step by lia. apply IH.
  - apply N.div_lt; lia.
  - cbn. by rewrite Hdigit, Hs.
Qed.

Lemma pretty_N_go_nonempty x s : s ≠ "" → pretty_N_go x s ≠ "".
Proof.
  revert s. induction (N.lt_wf_0 x) as [x _ IH]; intros s Hs.
  destruct (decide (x = 0)%N) as [->|Hx]; [by rewrite pretty_N_go_0|].
  rewrite pretty_N_go_step by lia. apply IH; [apply N.div_lt; lia|done].
Qed.

Lemma every_pretty_positive test (p : positive) :
  (∀ n, test (pretty_N_char n) = true) →
  every test (pretty p) = true ∧ pretty p ≠ "".
Proof.
  intros Hdigit. unfold pretty, pretty_positive, pretty, pretty_N.
  rewrite decide_False by done.
  rewrite pretty_N_go_step by lia. split.
  - apply every_pretty_N_go; [done|]. cbn. by rewrite Hdigit.
  - by apply pretty_N_go_nonempty.
Qed.

(** The rendering of an integer: digits after an optional minus sign, and
    never empty. *)
Lemma every_numberToString test d :
  (∀ n, test (pretty_N_char n) = true) → test "-"%char = true →
  every test (Js.numberToString d) = true ∧ Js.numberToString d ≠ "".
Proof.
  intros Hdigit Hminus. unfold Js.numberToString, pretty, pretty_Z.
  destruct d as [|p|p].
  - split; [|done]. cbn. change "0"%char with (pretty_N_char 0).
    by rewrite Hdigit.
  - by apply every_pretty_positive.
  - destruct (every_pretty_positive test p Hdigit) as [Hall Hne].
    split; [|done].
    change (every test (String "-" (pretty p)) = true).
    cbn [every]. by rewrite Hminus, Hall.
Qed.

Lemma digit_notBar n : notBar (pretty_N_char n) = true.
Proof. unfold pretty_N_char. by repeat case_match. Qed.

Lemma digit_notWhiteSpace n : negb (Js.isWhiteSpace (pretty_N_char n)) = true.
Proof. unfold pretty_N_char. by repeat case_match. Qed.

(** Two strings that agree up to their first bar agree before it and after
    it. *)
Lemma split_at_bar a a' r r' :
  every notBar a = true → every notBar a' = true →
  a +:+ "|" +:+ r = a' +:+ "|" +:+ r' → a = a' ∧ r = r'.
Proof.
  revert a'. induction a as [|c a IH]; intros a' Ha Ha' Heq.
  - destruct a' as [|c' a']; cbn in *; [by injection Heq|].
    injection Heq as <- _. by cbn in Ha'.
  - destruct a' as [|c' a']; cbn in *.
    + injection Heq as -> _. by cbn in Ha.
    + injection Heq as -> Heq.
      apply andb_true_iff in Ha as [_ Ha], Ha' as [_ Ha'].
      destruct (IH _ Ha Ha' Heq) as [-> ->]. done.
Qed.

Lemma depthPart_inj (d1 d2 : option Z) :
  from_option Js.numberToString "" d1 = from_option Js.numberToString "" d2 →
  d1 = d2.
Proof.
  destruct d1 as [d1|], d2 as [d2|]; cbn; intros Heq; [| | |done].
  - f_equal. by apply (inj pretty).
  - by destruct (every_numberToString notBar d1 digit_notBar eq_refl).
  - by destruct (every_numberToString notBar d2 digit_notBar eq_refl).
Qed.

(** X6. For member names without a bar the cache key tells requests apart:
    two requests meet in one key only if they agree on the name, on the
    depth and on the trimmed sources. *)
Theorem cacheKey_separates_requests spec1 spec2 sourcesArg1 sourcesArg2 :
  every notBar (name spec1) = true →
  every notBar (name spec2) = true →
  cacheKey spec1 sourcesArg1 = cacheKey spec2 sourcesArg2 →
  name spec1 = name spec2
  ∧ depth spec1 = depth spec2
  ∧ from_option Js.trim "" sourcesArg1 = from_option Js.trim "" sourcesArg2.
Proof.
  intros Hn1 Hn2. unfold cacheKey.
  change (match depth spec1 with Some d => Js.numberToString d | None => "" end)
    with (from_option Js.numberToString "" (depth spec1)).
  change (match depth spec2 with Some d => Js.numberToString d | None => "" end)
    with (from_option Js.numberToString "" (depth spec2)).
  change (match sourcesArg1 with Some s => Js.trim s | None => "" end)
    with (from_option Js.trim "" sourcesArg1).
  change (match sourcesArg2 with Some s => Js.trim s | None => "" end)
    with (from_option Js.trim "" sourcesArg2).
  assert (∀ d, every notBar (from_option Js.numberToString "" d) = true)
    as Hdepth.
  { intros [d|]; [|done].
    by destruct (every_numberToString notBar d digit_notBar eq_refl). }
  intros Heq.
  apply split_at_bar in Heq as [Hname Hrest]; [|done..].
  apply split_at_bar in Hrest as [Hd Hs]; [|done..].
  split_and!; [done| |done]. by apply depthPart_inj.
Qed.

Lemma trimStart_no_ws s :
  every (λ c, negb (Js.isWhiteSpace c)) s = true → Js.trimStart s = s.
Proof. destruct s as [|c r]; [done|]. cbn. by destruct (Js.isWhiteSpace c). Qed.

Lemma trimEnd_no_ws s :
  every (λ c, negb (Js.isWhiteSpace c)) s = true → Js.trimEnd s = s.
Proof.
  induction s as [|c r IH]; [done|]. cbn.
  intros [Hc Hr]%andb_true_iff. rewrite (IH Hr).
  destruct r; [|done]. by destruct (Js.isWhiteSpace c).
Qed.

Lemma trim_numberToString d :
  Js.trim (Js.numberToString d) = Js.numberToString d.
Proof.
  destruct (every_numberToString (λ c, negb (Js.isWhiteSpace c)) d
              digit_notWhiteSpace eq_refl) as [Hall _].
  unfold Js.trim. by rewrite (trimStart_no_ws _ Hall), (trimEnd_no_ws _ Hall).
Qed.

Lemma asnsOfBucket_numbers bucket :
  asnsOfBucket bucket =
    (λ n, "AS" +:+ Js.numberToString n) <$> omap asNumber bucket.
Proof.
  unfold asnsOfBucket. induction bucket as [|v bucket IH]; [done|].
  rewrite !fmap_cons, filter_cons.
  destruct v as [| | |n| | |]; cbn [asNumber omap]; try (cbn; exact IH).
  rewrite trim_numberToString.
  destruct (every_numberToString notBar n digit_notBar eq_refl) as [_ Hne].
  rewrite decide_True by (destruct (Js.numberToString n); [done|cbn; lia]).
  rewrite fmap_cons. cbn [omap asNumber]. by rewrite IH.
Qed.

(** X7. From the output of a process that exited normally and printed a
    JSON object, the adapter returns [AS] followed by the decimal
    rendering of each number of the bucket, in order, and drops every
    entry that is not a number.  The bucket is the array under the list
    label, which wins over any other key; an object with no array under
    the label or under its first key yields the empty list, not an
    error. *)
Theorem adapter_decodes_bucket JSON_parse spec stdout stderr obj :
  let label := sanitizeListName (name spec) in
  let result :=
    queryBgpq4ExpandedASNs_resume JSON_parse spec (Exited stdout stderr) in
  JSON_parse stdout = Some (Js.Object obj) →
  result =
    Ok ((λ n, "AS" +:+ Js.numberToString n)
          <$> omap asNumber (bucketOf label obj))
  ∧ (∀ items, Js.getProp obj label = Js.Array items →
       bucketOf label obj = items)
  ∧ (asArray (Js.getProp obj label) = None →
     asArray (Js.getProp obj (firstKey obj)) = None →
     result = Ok []).
Proof.
  intros label result Hparse. unfold result, queryBgpq4ExpandedASNs_resume.
  cbn. rewrite Hparse. fold label. rewrite asnsOfBucket_numbers.
  split_and!; [done| |].
  - intros items Hlabel. unfold bucketOf. by rewrite Hlabel.
  - intros Hlabel Hfirst. unfold bucketOf. by rewrite Hlabel, Hfirst.
Qed.

(** X8. The adapter fails in three cases and no other: the process ended
    in an error (the message carries the exit code, or [unknown], and the
    diagnostic output or else the error message), the output is not JSON
    (the message carries its first 200 code units), or the JSON is not an
    object. *)
Theorem adapter_failures JSON_parse spec r :
  let result := queryBgpq4ExpandedASNs_resume JSON_parse spec r in
  (∀ code message stderr,
     r = ExecError code message stderr →
     result =
       Err (Js.MkError
              ("bgpq4 failed (exit " +:+ default "unknown" code +:+ "): "
               +:+ (if decide (stderr = "") then message else stderr))))
  ∧ (∀ stdout stderr,
       r = Exited stdout stderr → JSON_parse stdout = None →
       result =
         Err (Js.MkError
                ("bgpq4 returned non-JSON output: "
                 +:+ String.substring 0 200 stdout)))
  ∧ (∀ stdout stderr parsed,
       r = Exited stdout stderr → JSON_parse stdout = Some parsed →
       (∀ obj, parsed ≠ Js.Object obj) →
       result = Err (Js.MkError "bgpq4 JSON output is not an object"))
  ∧ ((∃ e, result = Err e) ↔
       (∃ code message stderr, r = ExecError code message stderr)
       ∨ ∃ stdout stderr, r = Exited stdout stderr
           ∧ ∀ obj, JSON_parse stdout ≠ Some (Js.Object obj)).
Proof.
  intros result. unfold result, queryBgpq4ExpandedASNs_resume. split_and!.
  - intros code message stderr ->. cbn.
    destruct code, stderr; by cbn.
  - intros stdout stderr -> Hparse. cbn. by rewrite Hparse.
  - intros stdout stderr parsed -> Hparse Hne. cbn. rewrite Hparse.
    destruct parsed; try done. by destruct (Hne entries).
  - destruct r as [stdout stderr|code message stderr]; cbn.
    + destruct (JSON_parse stdout) as [parsed|] eqn:Hparse.
      * assert ((∃ obj, parsed = Js.Object obj)
                ∨ (∀ obj, parsed ≠ Js.Object obj)) as [[obj ->]|Hne]
          by (destruct parsed; eauto; by right).
        -- split; [by intros [e He]|].
           intros [(? & ? & ? & [=])|(so & se & [= <- <-] & Hno)].
           by destruct (Hno obj).
        -- split.
           ++ intros _. right. exists stdout, stderr. split; [done|].
              intros obj Heq. rewrite Hparse in Heq.
              injection Heq as Heq. by destruct (Hne obj).
           ++ intros _. destruct parsed; try by eauto.
              by destruct (Hne entries).
      * split; [|by eauto]. intros _. right. exists stdout, stderr.
        split; [done|]. intros obj. congruence.
    + split; [|by eauto]. intros _. left. eauto.
Qed.

(** * The YAML helper *)

(** ** Lines of a multi-line text *)

Lemma every_trimStart test s :
  every test s = true → every test (Js.trimStart s) = true.
Proof.
  induction s as [|c r IH]; [done|]. cbn.
  intros [Hc Hr]%andb_true_iff.
  destruct (Js.isWhiteSpace c); [by apply IH|]. cbn. by rewrite Hc, Hr.
Qed.

Lemma every_trimEnd test s :
  every test s = true → every test (Js.trimEnd s) = true.
Proof.
  induction s as [|c r IH]; [done|]. cbn.
  intros [Hc Hr]%andb_true_iff. specialize (IH Hr).
  destruct (Js.trimEnd r) as [|c' kept].
  - destruct (Js.isWhiteSpace c); [done|]. cbn. by rewrite Hc.
  - cbn in *. by rewrite Hc, IH.
Qed.

Lemma every_trim test s : every test s = true → every test (Js.trim s) = true.
Proof. intros H. by apply every_trimEnd, every_trimStart. Qed.

Lemma trimEnd_tail c r :
  Js.trimEnd (String c r) = String c r → Js.trimEnd r = r.
Proof.
  cbn. destruct (Js.trimEnd r) as [|c' kept] eqn:Hr.
  - destruct (Js.isWhiteSpace c); [done|]. by intros [= <-].
  - by intros [= <-].
Qed.

Lemma trimEnd_of_trimmed s : Js.trim s = s → Js.trimEnd s = s.
Proof. intros Hs. rewrite <- Hs. unfold Js.trim. apply trimEnd_idemp. Qed.

Lemma trimEnd_not_CR : Js.trimEnd (String CR EmptyString) ≠ String CR EmptyString.
Proof. done. Qed.

(** Induction on the length of a string. *)
Lemma string_length_ind (P : string → Prop) :
  (∀ s, (∀ s', (String.length s' < String.length s)%nat → P s') → P s) →
  ∀ s, P s.
Proof.
  intros Hstep s. remember (String.length s) as n eqn:Hn. revert s Hn.
  induction n as [n IHn] using lt_wf_ind. intros s ->.
  apply Hstep. intros s' Hlt. by eapply IHn.
Qed.

Lemma splitNewline_nonempty s : splitNewline s ≠ [].
Proof.
  induction s as [|c r IH]; [done|]. cbn.
  destruct (isLF c); [done|].
  destruct r as [|c' r']; [by destruct (splitNewline EmptyString)|].
  destruct (Ascii.eqb c CR && isLF c'); [done|].
  by destruct (splitNewline (String c' r')).
Qed.

Lemma splitNewline_every_notLF s :
  Forall (λ line, every notLF line = true) (splitNewline s).
Proof.
  induction s as [s IH] using string_length_ind.
  destruct s as [|c r]; [by repeat constructor|].
  assert (Forall (λ line, every notLF line = true) (splitNewline r)) as Hr
    by (apply IH; cbn; lia).
  cbn. destruct (isLF c) eqn:Hc; [by constructor|].
  assert (Forall (λ line, every notLF line = true)
            match splitNewline r with
            | line :: lines => String c line :: lines
            | [] => [String c EmptyString]
            end) as Hcont.
  { destruct (splitNewline r) as [|line lines].
    - repeat constructor. cbn. unfold notLF. by rewrite Hc.
    - inversion Hr; subst. constructor; [|done]. cbn.
      unfold notLF at 1. by rewrite Hc. }
  destruct r as [|c' r']; [done|].
  destruct (Ascii.eqb c CR && isLF c'); [|done].
  constructor; [done|]. apply IH. cbn. lia.
Qed.

Lemma splitMultiline_Forall value :
  Forall (λ line, line ≠ "" ∧ Js.trim line = line ∧ every notLF line = true)
    (splitMultiline value).
Proof.
  destruct value as [| | | |s| |]; try by constructor.
  unfold splitMultiline. apply Forall_forall. intros line Hin.
  apply list_elem_of_filter in Hin as [Hne Hin].
  apply list_elem_of_fmap in Hin as (l1 & -> & Hin).
  apply list_elem_of_fmap in Hin as (l0 & -> & Hin).
  pose proof (splitNewline_every_notLF s) as Hall.
  rewrite Forall_forall in Hall. specialize (Hall _ Hin).
  split_and!.
  - intros Heq. rewrite Heq in Hne. done.
  - apply trim_idemp.
  - by apply every_trim, every_trimEnd.
Qed.

(** X9. Whatever the value, every line [splitMultiline] returns is
    non-empty, carries no white space at either end and no line break
    inside; a value that is not a string has no lines. *)
Theorem splitMultiline_lines value :
  Forall (λ line, line ≠ "" ∧ Js.trim line = line ∧ every notLF line = true)
    (splitMultiline value)
  ∧ ((∀ s, value ≠ Js.Str s) → splitMultiline value = []).
Proof.
  split; [apply splitMultiline_Forall|].
  destruct value; try done. intros H. by destruct (H s).
Qed.

Lemma splitNewline_line line rest :
  every notLF line = true → Js.trimEnd line = line →
  splitNewline (line +:+ newline +:+ rest) = line :: splitNewline rest
  ∧ splitNewline (line +:+ String CR newline +:+ rest)
    = line :: splitNewline rest
  ∧ splitNewline line = [line].
Proof.
  induction line as [|c r IH]; intros Hall Htrim.
  { cbn. split_and!; done. }
  cbn in Hall. apply andb_true_iff in Hall as [Hc Hr].
  unfold notLF in Hc. apply negb_true_iff in Hc.
  destruct (IH Hr (trimEnd_tail _ _ Htrim)) as (IH1 & IH2 & IH3).
  assert (r = EmptyString → Ascii.eqb c CR = false) as Hcr.
  { intros ->. destruct (Ascii.eqb c CR) eqn:E; [|done].
    apply Ascii.eqb_eq in E as ->. by destruct trimEnd_not_CR. }
  change (String c r +:+ newline +:+ rest)
    with (String c (r +:+ newline +:+ rest)).
  change (String c r +:+ String CR newline +:+ rest)
    with (String c (r +:+ String CR newline +:+ rest)).
  cbn [splitNewline]. rewrite Hc, IH1, IH2, IH3.
  destruct r as [|c' r'].
  - rewrite (Hcr eq_refl). cbn. done.
  - cbn in Hr. apply andb_true_iff in Hr as [Hc' _].
    unfold notLF in Hc'. apply negb_true_iff in Hc'.
    assert (∀ t, String c' r' +:+ t = String c' (r' +:+ t)) as Happ by done.
    rewrite !Happ. cbv iota. rewrite Hc', andb_false_r. done.
Qed.

Lemma splitNewline_join sep lines :
  sep = newline ∨ sep = String CR newline →
  lines ≠ [] →
  Forall (λ line, every notLF line = true ∧ Js.trimEnd line = line) lines →
  splitNewline (join sep lines) = lines.
Proof.
  intros Hsep Hne Hall. induction Hall as [|line rest [Hlf Htrim] Hrest IH];
    [done|].
  destruct (splitNewline_line line (join sep rest) Hlf Htrim)
    as (H1 & H2 & H3).
  destruct rest as [|line' rest']; [exact H3|].
  change (join sep (line :: line' :: rest'))
    with (line +:+ sep +:+ join sep (line' :: rest')).
  destruct Hsep as [-> | ->]; [rewrite H1|rewrite H2]; by rewrite IH.
Qed.

(** X10. Lines that are non-empty, free of line breaks and of white space
    at their ends survive being joined and split again: joined by a line
    feed, or by carriage return and line feed, [splitMultiline] gives them
    back, in order. *)
Theorem splitMultiline_join lines :
  Forall (λ line, line ≠ "" ∧ Js.trim line = line ∧ every notLF line = true)
    lines →
  splitMultiline (Js.Str (join newline lines)) = lines
  ∧ splitMultiline (Js.Str (join (String CR newline) lines)) = lines.
Proof.
  intros Hall.
  assert (∀ sep, sep = newline ∨ sep = String CR newline →
            splitMultiline (Js.Str (join sep lines)) = lines) as Hsplit.
  { intros sep Hsep. unfold splitMultiline.
    destruct lines as [|line rest]; [done|].
    rewrite splitNewline_join; [|done|done|].
    - induction Hall as [|l ls (Hne & Htrim & _) _ IH]; [done|].
      rewrite !fmap_cons, filter_cons.
      rewrite (trimEnd_of_trimmed _ Htrim), Htrim.
      rewrite decide_True by (by destruct l).
      f_equal. exact IH.
    - eapply Forall_impl; [exact Hall|]. cbn. intros l (_ & Htrim & Hlf).
      split; [done|]. by apply trimEnd_of_trimmed. }
  split; apply Hsplit; auto.
Qed.

Lemma replaceCRLF_cons c c' r' :
  replaceCRLF (String c (String c' r')) =
    if Ascii.eqb c CR && isLF c' then String LF (replaceCRLF r')
    else String c (replaceCRLF (String c' r')).
Proof. done. Qed.

Lemma splitNewline_cons c c' r' :
  splitNewline (String c (String c' r')) =
    if isLF c then EmptyString :: splitNewline (String c' r')
    else if Ascii.eqb c CR && isLF c' then EmptyString :: splitNewline r'
    else match splitNewline (String c' r') with
         | line :: lines => String c line :: lines
         | [] => [String c EmptyString]
         end.
Proof. done. Qed.

Lemma splitLF_cons c r :
  splitLF (String c r) =
    if isLF c then EmptyString :: splitLF r
    else match splitLF r with
         | line :: lines => String c line :: lines
         | [] => [String c EmptyString]
         end.
Proof. done. Qed.

Lemma replaceCRLF_splitLF s : splitLF (replaceCRLF s) = splitNewline s.
Proof.
  induction s as [s IH] using string_length_ind.
  destruct s as [|c r]; [done|].
  destruct r as [|c' r'].
  { cbn. by destruct (isLF c). }
  rewrite replaceCRLF_cons, splitNewline_cons.
  destruct (Ascii.eqb c CR && isLF c') eqn:Hcrlf.
  - apply andb_true_iff in Hcrlf as [Hc Hc'].
    apply Ascii.eqb_eq in Hc as ->.
    rewrite splitLF_cons. change (isLF LF) with true. change (isLF CR) with false.
    cbv iota. f_equal. apply IH. cbn. lia.
  - rewrite splitLF_cons. rewrite (IH (String c' r')) by (cbn; lia). done.
Qed.

(** * Worked instances of the further properties *)

Lemma flatten_returns_primary_witness :
  let task := flattenMemberWithBgpq4 asFoo defaultOptions (Some "ARIN") in
  (run envScenario task initial).1 = Ok ["AS100"; "AS200"]
  ∧ queries envScenario task initial = [(asFoo, 20000, Some "ARIN")].
Proof.
  intros task.
  pose (st1 := (awaitQuery envScenario asFoo 20000 (Some "ARIN") initial).2).
  destruct (flatten_returns_primary envScenario asFoo defaultOptions
              (Some "ARIN") initial ["AS100"; "AS200"] st1 eq_refl)
    as [Hrun Hq]; [vm_compute; reflexivity|discriminate|].
  split; [unfold task; by rewrite Hrun|exact Hq].
Defined.

Lemma flatten_propagates_failure_witness :
  let task := flattenMemberWithBgpq4 asFoo (withOnEmpty keep) (Some "ARIN") in
  (run envFailing task initial).1 = Err toolFailure
  ∧ queries envFailing task initial = [(asFoo, 20000, Some "ARIN")].
Proof.
  intros task.
  pose (st1 := (awaitQuery envFailing asFoo 20000 (Some "ARIN") initial).2).
  destruct (flatten_propagates_failure envFailing asFoo (withOnEmpty keep)
              (Some "ARIN") initial toolFailure st1 eq_refl) as [Hfail _].
  destruct Hfail as [Hrun Hq]; [vm_compute; reflexivity|].
  split; [unfold task; by rewrite Hrun|exact Hq].
Defined.

Lemma successful_run_is_memoized_witness :
  let task := flattenMemberWithBgpq4 asFoo defaultOptions None in
  let st' := (run envScenario task initial).2 in
  run envFailing task st' = (Ok ["AS100"; "AS200"], st').
Proof.
  intros task st'.
  destruct (successful_run_is_memoized envScenario envFailing asFoo []
              defaultOptions None initial st' st') as [Hflatten _].
  - apply rtc_refl.
  - apply rtc_refl.
  - apply Hflatten. vm_compute. reflexivity.
Defined.

Lemma failed_query_is_retried_witness :
  let st' := (awaitQuery envFlaky asFoo 20000 None initial).2 in
  FLATTEN_CACHE st' !! "AS-FOO|1|" = None
  ∧ (awaitQuery envFlaky asFoo 20000 None st').1 = Ok ["AS100"].
Proof.
  intros st'.
  destruct (failed_query_is_retried envFlaky envFlaky asFoo 20000 None initial
              toolFailure st') as (Hgone & _ & Hretry).
  - apply rtc_refl.
  - vm_compute. reflexivity.
  - split; [exact Hgone|]. rewrite Hretry. reflexivity.
Defined.

Lemma resolve_without_flat_members_witness :
  run envFailing (resolveMembers [asBar; asFooPlain; asBar] defaultOptions None)
    initial = (Ok ["AS-BAR"; "AS-FOO"], initial)
  ∧ run envFailing (resolveMembers [asBar; asFooPlain] defaultOptions None)
      initial = (Ok ["AS-BAR"; "AS-FOO"], initial).
Proof.
  split.
  - destruct (resolve_without_flat_members envFailing
                [asBar; asFooPlain; asBar] defaultOptions None initial)
      as (Hrun & _ & _); [repeat constructor; discriminate|].
    rewrite Hrun. reflexivity.
  - destruct (resolve_without_flat_members envFailing
                [asBar; asFooPlain] defaultOptions None initial)
      as (_ & _ & Hdistinct); [repeat constructor; discriminate|].
    apply Hdistinct. cbn. apply NoDup_cons.
    split; [|apply NoDup_singleton].
    intros Hin%list_elem_of_singleton. discriminate Hin.
Defined.

Lemma cacheKey_separates_requests_witness :
  cacheKey asFoo (Some " RADB ") = cacheKey asFooPlain (Some "RADB")
  ∧ depth asFoo = depth asFooPlain.
Proof.
  assert (cacheKey asFoo (Some " RADB ") = cacheKey asFooPlain (Some "RADB"))
    as Hkey by reflexivity.
  split; [exact Hkey|].
  exact (proj1 (proj2 (cacheKey_separates_requests asFoo asFooPlain
                         (Some " RADB ") (Some "RADB") eq_refl eq_refl Hkey))).
Defined.

Lemma adapter_decodes_bucket_witness :
  queryBgpq4ExpandedASNs_resume parseSample asFoo
    (Exited "{AS_FOO: [64500, x, 64501]}" "") = Ok ["AS64500"; "AS64501"].
Proof.
  destruct (adapter_decodes_bucket parseSample asFoo
              "{AS_FOO: [64500, x, 64501]}" ""
              [("AS_FOO", Js.Array [Js.Number 64500; Js.Str "x";
                                    Js.Number 64501])] eq_refl)
    as (Hresult & _ & _).
  rewrite Hresult. vm_compute. reflexivity.
Defined.

Lemma adapter_failures_witness :
  queryBgpq4ExpandedASNs_resume parseSample asFoo
    (ExecError None "spawn bgpq4 ENOENT" "")
    = Err (Js.MkError "bgpq4 failed (exit unknown): spawn bgpq4 ENOENT")
  ∧ queryBgpq4ExpandedASNs_resume parseSample asFoo (Exited "oops" "")
    = Err (Js.MkError "bgpq4 returned non-JSON output: oops")
  ∧ queryBgpq4ExpandedASNs_resume parseSample asFoo (Exited "[]" "")
    = Err (Js.MkError "bgpq4 JSON output is not an object").
Proof.
  split_and!.
  - destruct (adapter_failures parseSample asFoo
                (ExecError None "spawn bgpq4 ENOENT" "")) as (H & _).
    exact (H None "spawn bgpq4 ENOENT" "" eq_refl).
  - destruct (adapter_failures parseSample asFoo (Exited "oops" ""))
      as (_ & H & _).
    exact (H "oops" "" eq_refl eq_refl).
  - destruct (adapter_failures parseSample asFoo (Exited "[]" ""))
      as (_ & _ & H & _).
    apply (H "[]" "" (Js.Array []) eq_refl eq_refl). discriminate.
Defined.

Lemma splitMultiline_lines_witness :
  (∀ s, Js.Null ≠ Js.Str s) ∧ splitMultiline Js.Null = [].
Proof.
  assert (∀ s, Js.Null ≠ Js.Str s) as Hne by discriminate.
  split; [exact Hne|].
  exact (proj2 (splitMultiline_lines Js.Null) Hne).
Defined.

Lemma splitMultiline_join_witness :
  splitMultiline (Js.Str (join newline ["first line"; "second"]))
    = ["first line"; "second"].
Proof.
  apply splitMultiline_join.
  repeat constructor; discriminate.
Defined.

(** ** Member names and contact links of a document *)

Lemma names_of_entries entries :
  name <$> omap specOfEntry entries = omap nonBlankName entries.*1.
Proof.
  induction entries as [|[raw cfg] entries IH]; [done|].
  cbn [omap fmap list_fmap list_omap fst]. unfold specOfEntry at 1, nonBlankName at 1.
  cbn [fst snd]. case_decide; [exact IH|]. cbn. f_equal. exact IH.
Qed.

Lemma namedEntries_names item : (namedEntries item).*1 = rawNames item.
Proof.
  destruct item as [| | | |s| |record]; try done.
  cbn. by rewrite <- list_fmap_compose.
Qed.

Lemma normalizeMembers_array items :
  normalizeMembers (Js.Array items) = omap nonBlankName (items ≫= rawNames).
Proof.
  unfold normalizeMembers, parseMemberSpecs.
  rewrite parseItems_spec. cbn [app]. unfold specParse.
  rewrite names_of_entries. f_equal.
  induction items as [|item items IH]; [done|].
  rewrite !bind_cons, fmap_app, IH. by rewrite namedEntries_names.
Qed.

Lemma normalizeMembers_normal value : Forall normalText (normalizeMembers value).
Proof.
  destruct value as [| | | | |items|]; try by constructor.
  rewrite normalizeMembers_array. apply Forall_forall. intros x Hin.
  apply list_elem_of_omap in Hin as (raw & _ & Hraw).
  unfold nonBlankName in Hraw. case_decide; [done|].
  injection Hraw as <-. split; [done|apply trim_idemp].
Qed.

(** X11. [normalizeMembers] keeps the names and nothing else: for a list
    it returns, in order, the trimmed non-blank plain strings and mapping
    keys other than [flat], [depth] and [source], whatever configuration
    the mappings carry; for anything that is not a list it returns
    nothing. *)
Theorem normalizeMembers_names :
  (∀ items,
     normalizeMembers (Js.Array items) = omap nonBlankName (items ≫= rawNames))
  ∧ (∀ value, (∀ items, value ≠ Js.Array items) → normalizeMembers value = [])
  ∧ (∀ value, Forall normalText (normalizeMembers value)).
Proof.
  split_and!; [apply normalizeMembers_array| |apply normalizeMembers_normal].
  intros value Hne. destruct value; try done. by destruct (Hne items).
Qed.

Lemma normalizePocLinks_fold items out :
  fold_left normalizePocLink items out =
    out ++ (items ≫= normalizePocLink []).
Proof.
  revert out. induction items as [|item items IH]; intros out.
  { cbn. by rewrite app_nil_r. }
  cbn [fold_left]. rewrite IH, bind_cons, app_assoc. f_equal.
  unfold normalizePocLink. destruct item; try by rewrite app_nil_r.
  destruct (negb _); [by rewrite app_nil_r|done].
Qed.

Lemma normalizePocLink_handle item link :
  link ∈ normalizePocLink [] item →
  normalText (ARINPoc.handle (ARINPocLink.handle link)).
Proof.
  unfold normalizePocLink. destruct item as [| | | | | |fields];
    try by intros ?%elem_of_nil.
  destruct (Js.getProp fields "handle") as [| | | |s| |];
    try by intros ?%elem_of_nil.
  destruct (Js.trim s) as [|c r] eqn:Hs; [by intros ?%elem_of_nil|].
  cbn. intros ->%list_elem_of_singleton. cbn. split; [done|].
  rewrite <- Hs. apply trim_idemp.
Qed.

Lemma normalizePocLinks_array items :
  normalizePocLinks (Js.Array items) = items ≫= normalizePocLink [].
Proof. unfold normalizePocLinks. by rewrite normalizePocLinks_fold. Qed.

Lemma normalizePocLinks_normal value :
  Forall (λ link, normalText (ARINPoc.handle (ARINPocLink.handle link)))
    (normalizePocLinks value).
Proof.
  destruct value as [| | | | |items|]; try by constructor.
  rewrite normalizePocLinks_array. apply Forall_forall. intros link Hin.
  apply list_elem_of_bind in Hin as (item & Hlink & _).
  by eapply normalizePocLink_handle.
Qed.


(** ** Documents *)

Lemma trimmedString_normal v :
  trimmedString v ≠ "" → normalText (trimmedString v).
Proof.
  intros Hne. split; [done|]. destruct v; try done. apply trim_idemp.
Qed.

(** X13. [ASSetFromYamlObject] accepts a value exactly when it is a
    mapping whose [name] is a string that is not blank and whose [source],
    if a non-blank string, is ARIN.  It rejects anything that is not a
    mapping first, then a missing name, then a foreign source, each with
    its own message. *)
Theorem ASSetFromYamlObject_accepts Date_parse value :
  ((∃ asSet, ASSetFromYamlObject Date_parse value = Ok asSet) ↔
     ∃ y, value = Js.Object y
          ∧ trimmedString (Js.getProp y "name") ≠ ""
          ∧ (trimmedString (Js.getProp y "source") = ""
             ∨ trimmedString (Js.getProp y "source") = "ARIN"))
  ∧ ((∀ y, value ≠ Js.Object y) →
     ASSetFromYamlObject Date_parse value =
       Err (Js.MkError "Invalid ASSet YAML: root must be a mapping/object"))
  ∧ (∀ y, value = Js.Object y →
       trimmedString (Js.getProp y "name") = "" →
       ASSetFromYamlObject Date_parse value =
         Err (Js.MkError "Invalid ASSet YAML: missing/empty 'name'"))
  ∧ (∀ y, value = Js.Object y →
       trimmedString (Js.getProp y "name") ≠ "" →
       trimmedString (Js.getProp y "source") ≠ "" →
       trimmedString (Js.getProp y "source") ≠ "ARIN" →
       ASSetFromYamlObject Date_parse value =
         Err (Js.MkError
                ("Invalid ASSet YAML: unsupported 'source' ("
                 +:+ trimmedString (Js.getProp y "source") +:+ ")"))).
Proof.
  split_and!.
  - split.
    + intros [asSet Hok]. destruct value as [| | | | | |y]; try done.
      exists y. split; [done|]. unfold ASSetFromYamlObject in Hok.
      destruct (trimmedString (Js.getProp y "name")) as [|c r]; [done|].
      cbn [Js.truthy negb] in Hok. split; [done|].
      destruct (trimmedString (Js.getProp y "source")) as [|c' r'] eqn:Hs;
        [by left|right].
      cbn [Js.truthy andb] in Hok.
      destruct (String.eqb (String c' r') "ARIN") eqn:Heq; [|done].
      by apply String.eqb_eq in Heq.
    + intros (y & -> & Hname & Hsource). unfold ASSetFromYamlObject.
      destruct (trimmedString (Js.getProp y "name")) as [|c r]; [done|].
      cbn [Js.truthy negb]. destruct Hsource as [-> | ->]; cbn; eauto.
  - intros Hne. destruct value; try done. by destruct (Hne entries).
  - intros y -> Hname. unfold ASSetFromYamlObject. by rewrite Hname.
  - intros y -> Hname Hs Harin. unfold ASSetFromYamlObject.
    destruct (trimmedString (Js.getProp y "name")) as [|c r]; [done|].
    cbn [Js.truthy negb].
    destruct (trimmedString (Js.getProp y "source")) as [|c' r']; [done|].
    cbn [Js.truthy andb].
    destruct (String.eqb (String c' r') "ARIN") eqn:Heq; [|done].
    by apply String.eqb_eq in Heq.
Qed.

(** X14. An AS-SET that [ASSetFromYamlObject] returns is in normal form:
    its name, its description and remark lines, its member names, the
    handles of its contacts and its organisation handle are all trimmed
    and non-empty; it carries no modification date; and its members are
    the member names of the document, duplicates included. *)
Theorem ASSetFromYamlObject_normal_form Date_parse y asSet :
  ASSetFromYamlObject Date_parse (Js.Object y) = Ok asSet →
  normalText (ASSet.name asSet)
  ∧ Forall normalText (ASSet.descriptions asSet)
  ∧ (∃ remarks, ASSet.remarks asSet = Some remarks ∧ Forall normalText remarks)
  ∧ Forall normalText (ASSet.members asSet)
  ∧ Forall (λ link, normalText (ARINPoc.handle (ARINPocLink.handle link)))
      (ASSet.pocLinks asSet)
  ∧ (∀ org, ASSet.orgHandle asSet = Some org → normalText (ARINOrg.handle org))
  ∧ ASSet.lastModifiedDate asSet = None
  ∧ ASSet.members asSet = normalizeMembers (Js.getProp y "members").
Proof.
  unfold ASSetFromYamlObject.
  destruct (trimmedString (Js.getProp y "name")) as [|c r] eqn:Hname; [done|].
  cbn [Js.truthy negb].
  destruct (Js.truthy _ && negb _); [done|]. intros [= <-]. cbn.
  assert (∀ v, Forall normalText (splitMultiline v)) as Hlines.
  { intros v. eapply Forall_impl; [apply splitMultiline_Forall|].
    by intros line (? & ? & _). }
  split_and!; try done.
  - rewrite <- Hname. by apply trimmedString_normal; rewrite Hname.
  - eauto.
  - apply normalizeMembers_normal.
  - apply normalizePocLinks_normal.
  - intros org. destruct (Js.getProp y "orgHandle") as [| | | |s| |]; try done.
    destruct (Js.trim s) as [|c' r'] eqn:Hs; [done|].
    intros [= <-]. cbn. split; [done|]. rewrite <- Hs. apply trim_idemp.
Qed.

Lemma ASSetFromYamlObject_source Date_parse y asSet :
  ASSetFromYamlObject Date_parse (Js.Object y) = Ok asSet →
  (trimmedString (Js.getProp y "source") = ""
   ∨ trimmedString (Js.getProp y "source") = "ARIN")
  ∧ ASSet.members asSet = normalizeMembers (Js.getProp y "members").
Proof.
  unfold ASSetFromYamlObject.
  destruct (trimmedString (Js.getProp y "name")) as [|c r]; [done|].
  cbn [Js.truthy negb].
  destruct (trimmedString (Js.getProp y "source")) as [|c' r'] eqn:Hs.
  { cbn. intros [= <-]. by split; [left|]. }
  cbn [Js.truthy andb].
  destruct (String.eqb (String c' r') "ARIN") eqn:Heq; [|done].
  apply String.eqb_eq in Heq. cbn. intros [= <-]. by split; [right|].
Qed.

Lemma run_resolveMembers_NoDup env specs options srcs st out st' :
  run env (resolveMembers specs options srcs) st = (Ok out, st') → NoDup out.
Proof.
  unfold resolveMembers. rewrite run_resolveLoop.
  destruct (flattenEach env specs options srcs st) as [[results|e] st1];
    [|done].
  intros [= <- _]. apply NoDup_arrayFromSet.
Qed.

(** The body of [ASSetFromYamlAndFlatten] once the document has been
    accepted. *)
Lemma ASSetFromYamlAndFlatten_accepted Date_parse parse yamlText options y base :
  parse yamlText = Ok (Js.Object y) →
  ASSetFromYamlObject Date_parse (Js.Object y) = Ok base →
  ASSetFromYamlAndFlatten Date_parse parse yamlText options =
    if negb (Js.truthy (trimmedString (Js.getProp y "source")))
    then Throw (Js.MkError
           "Invalid ASSet YAML: missing/empty 'source' for flattening")
    else
      let* members :=
        resolveMembers (parseMemberSpecs (Js.getProp y "members")) options
          (Some (trimmedString (Js.getProp y "source"))) in
      Return (withMembers base members).
Proof.
  intros Hparse Hbase. unfold ASSetFromYamlAndFlatten.
  by rewrite Hparse, Hbase.
Qed.

(** X15. [ASSetFromYamlAndFlatten] resolves members only for a document
    that [ASSetFromYamlObject] accepts and whose [source] is ARIN: what it
    returns is that AS-SET with its members replaced by what
    [resolveMembers] returns for the parsed member list with ARIN as the
    default sources, so without duplicates.  A document that is accepted
    without a [source] is rejected here, before any query is made. *)
Theorem ASSetFromYamlAndFlatten_requires_source
    Date_parse parse yamlText options env st :
  let task := ASSetFromYamlAndFlatten Date_parse parse yamlText options in
  (∀ asSet st',
     run env task st = (Ok asSet, st') →
     ∃ y base,
       parse yamlText = Ok (Js.Object y)
       ∧ ASSetFromYamlObject Date_parse (Js.Object y) = Ok base
       ∧ trimmedString (Js.getProp y "source") = "ARIN"
       ∧ run env (resolveMembers (parseMemberSpecs (Js.getProp y "members"))
                    options (Some "ARIN")) st
         = (Ok (ASSet.members asSet), st')
       ∧ asSet = withMembers base (ASSet.members asSet)
       ∧ NoDup (ASSet.members asSet))
  ∧ (∀ y base,
       parse yamlText = Ok (Js.Object y) →
       ASSetFromYamlObject Date_parse (Js.Object y) = Ok base →
       trimmedString (Js.getProp y "source") = "" →
       run env task st =
         (Err (Js.MkError
                 "Invalid ASSet YAML: missing/empty 'source' for flattening"),
          st)
       ∧ queries env task st = []).
Proof.
  intros task. split.
  - intros asSet st' Hrun. unfold task, ASSetFromYamlAndFlatten in Hrun.
    destruct (parse yamlText) as [obj|e] eqn:Hparse; [|done].
    destruct obj as [| | | | | |y]; try done.
    destruct (ASSetFromYamlObject Date_parse (Js.Object y)) as [base|e]
      eqn:Hbase; [|done].
    destruct (ASSetFromYamlObject_source _ _ _ Hbase) as [[Hs|Hs] _];
      rewrite Hs in Hrun; [done|].
    cbn [Js.truthy negb] in Hrun. rewrite run_bind in Hrun.
    destruct (run env (resolveMembers _ options (Some "ARIN")) st)
      as [[members|e] st1] eqn:Hres; [|done].
    injection Hrun as <- <-. exists y, base. cbn.
    split_and!; try done. by eapply run_resolveMembers_NoDup.
  - intros y base Hparse Hbase Hs. unfold task.
    rewrite (ASSetFromYamlAndFlatten_accepted _ _ _ _ _ _ Hparse Hbase).
    by rewrite Hs.
Qed.

(** X16. For an accepted document with source ARIN in which no member is
    marked flat, [ASSetFromYamlAndFlatten] makes no query and returns the
    AS-SET of [ASSetFromYamlObject] with the duplicate member names
    removed, first occurrences kept in order. *)
Theorem ASSetFromYamlAndFlatten_without_flat
    Date_parse parse yamlText options env st y base :
  let task := ASSetFromYamlAndFlatten Date_parse parse yamlText options in
  parse yamlText = Ok (Js.Object y) →
  ASSetFromYamlObject Date_parse (Js.Object y) = Ok base →
  trimmedString (Js.getProp y "source") = "ARIN" →
  Forall (λ spec, flat spec ≠ Some true)
    (parseMemberSpecs (Js.getProp y "members")) →
  run env task st =
    (Ok (withMembers base (arrayFromSet (ASSet.members base))), st)
  ∧ queries env task st = [].
Proof.
  intros task Hparse Hbase Hs Hflat. unfold task.
  rewrite (ASSetFromYamlAndFlatten_accepted _ _ _ _ _ _ Hparse Hbase).
  rewrite Hs. cbn [Js.truthy negb].
  rewrite run_bind, queries_bind. unfold resolveMembers.
  destruct (resolveLoop_nonflat env _ options (Some "ARIN") [] st Hflat)
    as [-> ->].
  destruct (ASSetFromYamlObject_source _ _ _ Hbase) as [_ ->].
  done.
Qed.

Lemma normalizeMembers_names_witness :
  (∀ items, Js.Str "AS64500" ≠ Js.Array items)
  ∧ normalizeMembers (Js.Str "AS64500") = []
  ∧ normalizeMembers
      (Js.Array [Js.Str " AS64500";
                 Js.Object [("flat", Js.Bool true); ("AS-PEER", Js.Null)]])
    = ["AS64500"; "AS-PEER"].
Proof.
  destruct normalizeMembers_names as (Harray & Hother & _).
  assert (∀ items, Js.Str "AS64500" ≠ Js.Array items) as Hne by discriminate.
  split; [exact Hne|]. split; [exact (Hother _ Hne)|].
  rewrite Harray. vm_compute. reflexivity.
Defined.


Lemma ASSetFromYamlObject_accepts_witness :
  ∃ asSet, ASSetFromYamlObject noDates sampleDocument = Ok asSet.
Proof.
  apply (proj1 (ASSetFromYamlObject_accepts noDates sampleDocument)).
  eexists. split; [reflexivity|]. split; [discriminate|by right].
Defined.

Lemma ASSetFromYamlObject_normal_form_witness :
  ∃ asSet,
    ASSetFromYamlObject noDates sampleDocument = Ok asSet
    ∧ normalText (ASSet.name asSet)
    ∧ ASSet.members asSet = ["AS64500"; "AS-PEER"; "AS64500"].
Proof.
  destruct (ASSetFromYamlObject noDates sampleDocument) as [asSet|e] eqn:Hok;
    [|vm_compute in Hok; discriminate Hok].
  exists asSet. split; [reflexivity|].
  unfold sampleDocument in Hok.
  destruct (ASSetFromYamlObject_normal_form noDates _ asSet Hok)
    as (Hname & _ & _ & _ & _ & _ & _ & Hmembers).
  split; [exact Hname|]. rewrite Hmembers. vm_compute. reflexivity.
Defined.

Lemma ASSetFromYamlAndFlatten_requires_source_witness :
  ∃ asSet st',
    run envEmpty
      (ASSetFromYamlAndFlatten noDates parseToSample "AS-EXAMPLE.yaml"
         defaultOptions) initial = (Ok asSet, st')
    ∧ NoDup (ASSet.members asSet).
Proof.
  destruct (run envEmpty
              (ASSetFromYamlAndFlatten noDates parseToSample "AS-EXAMPLE.yaml"
                 defaultOptions) initial) as [[asSet|e] st'] eqn:Hrun;
    [|vm_compute in Hrun; discriminate Hrun].
  exists asSet, st'. split; [reflexivity|].
  destruct (proj1 (ASSetFromYamlAndFlatten_requires_source noDates
                     parseToSample "AS-EXAMPLE.yaml" defaultOptions
                     envEmpty initial) asSet st' Hrun)
    as (y & base & _ & _ & _ & _ & _ & Hnodup).
  exact Hnodup.
Defined.

Lemma ASSetFromYamlAndFlatten_without_flat_witness :
  ∃ asSet,
    run envFailing
      (ASSetFromYamlAndFlatten noDates parseToSample "AS-EXAMPLE.yaml"
         defaultOptions) initial = (Ok asSet, initial)
    ∧ ASSet.members asSet = ["AS64500"; "AS-PEER"].
Proof.
  destruct (ASSetFromYamlObject noDates sampleDocument) as [base|e] eqn:Hok;
    [|vm_compute in Hok; discriminate Hok].
  unfold sampleDocument in Hok.
  edestruct (ASSetFromYamlAndFlatten_without_flat noDates parseToSample
               "AS-EXAMPLE.yaml" defaultOptions envFailing initial _ base
               eq_refl Hok eq_refl) as [Hrun _].
  { vm_compute. repeat constructor; discriminate. }
  eexists. split; [exact Hrun|].
  cbn [withMembers ASSet.members].
  vm_compute in Hok. injection Hok as <-. vm_compute. reflexivity.
Defined.

(** * The AS-SET object and its RPSL text *)

(** ** Sorting the members *)

Section SortFacts.

Variable cmp : string → string → Z.

Lemma insertSorted_Permutation x l : ASSet.insertSorted cmp x l ≡ₚ x :: l.
Proof.
  induction l as [|y l IH]; [done|]. cbn.
  destruct (cmp x y <=? 0)%Z; [done|].
  rewrite IH. apply Permutation_swap.
Qed.

Lemma sort_Permutation l : ASSet.sort cmp l ≡ₚ l.
Proof.
  induction l as [|x l IH]; [done|]. cbn.
  by rewrite insertSorted_Permutation, IH.
Qed.

Lemma sort_Forall (P : string → Prop) l :
  Forall P l → Forall P (ASSet.sort cmp l).
Proof. intros H. by rewrite sort_Permutation. Qed.

Lemma trimmedNonEmpty_normal l : Forall normalText (ASSet.trimmedNonEmpty l).
Proof.
  unfold ASSet.trimmedNonEmpty. apply Forall_forall. intros x Hin.
  apply list_elem_of_filter in Hin as [Hne Hin].
  apply list_elem_of_fmap in Hin as (raw & -> & _).
  split; [|apply trim_idemp]. intros Heq. by rewrite Heq in Hne.
Qed.

Lemma trimmedNonEmpty_fixed l :
  Forall normalText l → ASSet.trimmedNonEmpty l = l.
Proof.
  unfold ASSet.trimmedNonEmpty.
  induction 1 as [|x l [Hne Htrim] _ IH]; [done|].
  rewrite fmap_cons, filter_cons, Htrim.
  rewrite decide_True by (by destruct x). by rewrite IH.
Qed.

Lemma normalizeMembers_normalText members :
  Forall normalText (ASSet.normalizeMembers cmp members).
Proof. apply sort_Forall, trimmedNonEmpty_normal. Qed.

Lemma insertSorted_sorted x l :
  ordering cmp → sortedBy cmp l → sortedBy cmp (ASSet.insertSorted cmp x l).
Proof.
  intros [Htotal Htrans]. induction 1 as [|y l Hy Hl IH]; cbn.
  { repeat constructor. }
  destruct (cmp x y <=? 0)%Z eqn:Hxy.
  - apply Z.leb_le in Hxy. constructor; [|by constructor].
    constructor; [done|]. eapply Forall_impl; [exact Hy|].
    intros z Hz. by eapply Htrans.
  - apply Z.leb_gt in Hxy. constructor; [|done].
    rewrite insertSorted_Permutation. constructor; [|done].
    destruct (Htotal x y); [lia|done].
Qed.

Lemma sort_sorted l : ordering cmp → sortedBy cmp (ASSet.sort cmp l).
Proof.
  intros Hord. induction l as [|x l IH]; [constructor|].
  cbn. by apply insertSorted_sorted.
Qed.

Lemma insertSorted_head x l :
  Forall (λ y, (cmp x y ≤ 0)%Z) l → ASSet.insertSorted cmp x l = x :: l.
Proof.
  destruct 1 as [|y l Hy _]; [done|]. cbn.
  by rewrite (proj2 (Z.leb_le _ _) Hy).
Qed.

Lemma sort_of_sorted l : sortedBy cmp l → ASSet.sort cmp l = l.
Proof.
  induction 1 as [|x l Hx _ IH]; [done|].
  change (ASSet.sort cmp (x :: l))
    with (ASSet.insertSorted cmp x (ASSet.sort cmp l)).
  rewrite IH. by apply insertSorted_head.
Qed.

(** X17. [normalizeMembers] of the AS-SET object returns a rearrangement
    of the trimmed non-blank members.  With a collation that is total and
    transitive the result is in collation order and normalizing it again
    changes nothing. *)
Theorem normalizeMembers_sorted members :
  ASSet.normalizeMembers cmp members ≡ₚ ASSet.trimmedNonEmpty members
  ∧ Forall normalText (ASSet.normalizeMembers cmp members)
  ∧ (ordering cmp →
     sortedBy cmp (ASSet.normalizeMembers cmp members)
     ∧ ASSet.normalizeMembers cmp (ASSet.normalizeMembers cmp members)
       = ASSet.normalizeMembers cmp members).
Proof.
  split_and!.
  - apply sort_Permutation.
  - apply normalizeMembers_normalText.
  - intros Hord. split; [by apply sort_sorted|].
    unfold ASSet.normalizeMembers at 1.
    fold (ASSet.trimmedNonEmpty (ASSet.normalizeMembers cmp members)).
    rewrite trimmedNonEmpty_fixed by apply normalizeMembers_normalText.
    by apply sort_of_sorted, sort_sorted.
Qed.

(** ** Writing the text *)

Lemma pushTexts_spec label lines texts :
  ASSet.pushTexts label lines texts =
    lines ++ ((λ text, label +:+ text) <$> ASSet.trimmedNonEmpty texts).
Proof.
  unfold ASSet.pushTexts, ASSet.trimmedNonEmpty. revert lines.
  induction texts as [|text texts IH]; intros lines.
  { cbn. by rewrite app_nil_r. }
  cbn [fold_left]. rewrite IH, fmap_cons, filter_cons.
  destruct (Js.trim text) as [|c r]; cbn [Js.truthy].
  - by rewrite decide_False by (cbn; lia).
  - rewrite decide_True by (cbn; lia). by rewrite <- app_assoc.
Qed.

Lemma pushPocLinks_spec links lines :
  fold_left ASSet.pushPocLink links lines =
    lines ++ (renderPair <$> omap pocPair links).
Proof.
  revert lines. induction links as [|p links IH]; intros lines.
  { cbn. by rewrite app_nil_r. }
  cbn [fold_left]. rewrite IH. cbn [omap list_omap].
  unfold ASSet.pushPocLink, pocPair.
  destruct (Js.trim (ARINPoc.handle (ARINPocLink.handle p))) as [|c r];
    cbn [Js.truthy negb].
  { by rewrite decide_True. }
  rewrite decide_False by done.
  destruct (String.eqb (ARINPocLink.function p) "T") eqn:HT.
  { apply String.eqb_eq in HT. rewrite decide_True by done.
    by rewrite <- app_assoc. }
  apply String.eqb_neq in HT. rewrite decide_False by done.
  destruct (String.eqb (ARINPocLink.function p) "AD") eqn:HAD.
  { apply String.eqb_eq in HAD. rewrite decide_True by done.
    by rewrite <- app_assoc. }
  apply String.eqb_neq in HAD. by rewrite decide_False.
Qed.

Lemma toRPSL_pairs this :
  Js.trim (ASSet.name this) ≠ "" →
  ASSet.toRPSL cmp this =
    Ok (join newline (renderPair <$> rpslPairs cmp this) +:+ newline).
Proof.
  intros Hname. unfold ASSet.toRPSL.
  assert (Js.truthy (ASSet.name this) = true ∧
          Js.truthy (Js.trim (ASSet.name this)) = true) as [-> ->].
  { destruct (ASSet.name this); [done|].
    split; [done|]. by destruct (Js.trim _). }
  cbn [negb orb]. do 2 f_equal. unfold rpslPairs.
  rewrite !fmap_app, <- !list_fmap_compose.
  rewrite pushTexts_spec, pushPocLinks_spec, !pushTexts_spec.
  rewrite (trimmedNonEmpty_fixed
             (ASSet.normalizeMembers cmp (ASSet.members this)))
    by apply normalizeMembers_normalText.
  assert (match ASSet.remarks this with
          | Some rs =>
              ASSet.pushTexts "remarks: "
                (["as-set: " +:+ Js.trim (ASSet.name this)] ++
                 ((λ text, "descr: " +:+ text)
                    <$> ASSet.trimmedNonEmpty (ASSet.descriptions this))) rs
          | None =>
              ["as-set: " +:+ Js.trim (ASSet.name this)] ++
              ((λ text, "descr: " +:+ text)
                 <$> ASSet.trimmedNonEmpty (ASSet.descriptions this))
          end =
          (["as-set: " +:+ Js.trim (ASSet.name this)] ++
           ((λ text, "descr: " +:+ text)
              <$> ASSet.trimmedNonEmpty (ASSet.descriptions this))) ++
          ((λ text, "remarks: " +:+ text)
             <$> ASSet.trimmedNonEmpty (default [] (ASSet.remarks this))))
    as ->.
  { destruct (ASSet.remarks this) as [rs|]; cbn [default from_option].
    - apply pushTexts_spec.
    - cbn. by rewrite app_nil_r. }
  assert (∀ lines,
    match ASSet.orgHandle this with
    | Some org =>
        if Js.truthy (ARINOrg.handle org)
           && Js.truthy (Js.trim (ARINOrg.handle org))
        then lines ++ ["org-handle: " +:+ Js.trim (ARINOrg.handle org)]
        else lines
    | None => lines
    end = lines ++ (renderPair <$> orgPair (ASSet.orgHandle this))) as ->.
  { intros lines. unfold orgPair.
    destruct (ASSet.orgHandle this) as [org|]; [|by rewrite app_nil_r].
    destruct (ARINOrg.handle org) as [|c r] eqn:Horg.
    { cbn. by rewrite app_nil_r. }
    cbn [Js.truthy andb].
    destruct (Js.trim (String c r)) as [|c' r']; cbn [Js.truthy].
    - rewrite decide_True by done. by rewrite app_nil_r.
    - by rewrite decide_False. }
  rewrite <- !app_assoc. reflexivity.
Qed.

End SortFacts.

(** ** Reading the text back *)

Lemma append_cons c s t : String c s +:+ t = String c (s +:+ t).
Proof. done. Qed.

Lemma append_empty_l t : EmptyString +:+ t = t.
Proof. done. Qed.

Lemma every_append test s t :
  every test (s +:+ t) = every test s && every test t.
Proof.
  induction s as [|c s IH]; [done|].
  rewrite append_cons. cbn [every]. rewrite IH. apply andb_assoc.
Qed.

Lemma trimEnd_cons_kept c rest :
  rest ≠ "" → Js.trimEnd rest = rest →
  Js.trimEnd (String c rest) = String c rest.
Proof. intros Hne Hrest. cbn. rewrite Hrest. by destruct rest. Qed.

Lemma trimEnd_append a v :
  v ≠ "" → Js.trimEnd v = v → Js.trimEnd (a +:+ v) = a +:+ v.
Proof.
  intros Hne Hv. induction a as [|c a IH]; [done|].
  rewrite append_cons. apply trimEnd_cons_kept; [|done].
  destruct a; [done|]. by rewrite append_cons.
Qed.

Lemma trim_after_space v : Js.trim v = v → Js.trim (String " " v) = v.
Proof. intros Hv. unfold Js.trim in *. by cbn. Qed.

Lemma parseRpslLine_pair st k v :
  k ∈ rpslKeys → normalText v →
  ASSet.parseRpslLine st (renderPair (k, v)) =
    {| ASSet.fields := addPair (ASSet.fields st) (k, v);
       ASSet.lastKey := Some k |}.
Proof.
  intros Hk [Hne Htrim].
  pose proof (trimEnd_of_trimmed _ Htrim) as Hend.
  pose proof (trim_after_space _ Htrim) as Hspace.
  unfold rpslKeys in Hk. unfold ASSet.parseRpslLine, renderPair, addPair.
  cbn [fst snd].
  repeat (apply elem_of_cons in Hk as [->|Hk]);
    [..|by apply elem_of_nil in Hk];
    match goal with
    | |- context [Js.trimEnd (?key +:+ ": " +:+ v)] =>
        change (key +:+ ": " +:+ v) with ((key +:+ ": ") +:+ v);
        rewrite (trimEnd_append (key +:+ ": ") v Hne Hend);
        change ((key +:+ ": ") +:+ v) with (key +:+ ": " +:+ v)
    end;
    match goal with
    | |- context [?key +:+ ": " +:+ v] =>
        let line := eval cbv [String.append] in (key +:+ ": " +:+ v) in
        change (key +:+ ": " +:+ v) with line
    end;
    cbn -[Js.trim insert lookup]; unfold ASSet.pushField;
    cbn -[Js.trim insert lookup]; rewrite Hspace; reflexivity.
Qed.

Lemma parseRpslLines_pairs pairs st :
  Forall (λ pair, pair.1 ∈ rpslKeys ∧ normalText pair.2) pairs →
  ASSet.fields (fold_left ASSet.parseRpslLine (renderPair <$> pairs) st) =
    fold_left addPair pairs (ASSet.fields st).
Proof.
  intros Hall. revert st.
  induction Hall as [|[k v] pairs [Hk Hv] _ IH]; intros st; [done|].
  cbn [fmap list_fmap fold_left]. rewrite IH.
  by rewrite (parseRpslLine_pair st k v Hk Hv).
Qed.

Lemma parseRpslLine_empty st :
  ASSet.fields (ASSet.parseRpslLine st EmptyString) = ASSet.fields st.
Proof. done. Qed.

Lemma valuesOf_cons key pair pairs :
  valuesOf key (pair :: pairs) =
    if decide (pair.1 = key) then pair.2 :: valuesOf key pairs
    else valuesOf key pairs.
Proof. unfold valuesOf. rewrite filter_cons. by case_decide. Qed.

Lemma valuesOf_app key pairs1 pairs2 :
  valuesOf key (pairs1 ++ pairs2) = valuesOf key pairs1 ++ valuesOf key pairs2.
Proof. unfold valuesOf. by rewrite filter_app, fmap_app. Qed.

Lemma valuesOf_pair key key' values :
  valuesOf key (pair key' <$> values) =
    if decide (key' = key) then values else [].
Proof.
  induction values as [|v values IH]; [by case_decide|].
  rewrite fmap_cons, valuesOf_cons, IH. cbn [fst snd]. by case_decide.
Qed.

Lemma lookup_addPairs pairs fs key :
  fold_left addPair pairs fs !! key =
    match valuesOf key pairs with
    | [] => fs !! key
    | values => Some (default [] (fs !! key) ++ values)
    end.
Proof.
  revert fs. induction pairs as [|[k v] pairs IH]; intros fs; [done|].
  cbn [fold_left]. rewrite IH, valuesOf_cons. unfold addPair. cbn [fst snd].
  case_decide as Hk.
  - subst k. rewrite lookup_insert_eq. cbn [default from_option].
    destruct (valuesOf key pairs); [done|].
    unfold id. by rewrite <- app_assoc.
  - by rewrite lookup_insert_ne.
Qed.

Lemma append_nil_r s : s +:+ EmptyString = s.
Proof. induction s as [|c s IH]; [done|]. by rewrite append_cons, IH. Qed.

Lemma append_assoc' s t u : (s +:+ t) +:+ u = s +:+ t +:+ u.
Proof. induction s as [|c s IH]; [done|]. by rewrite !append_cons, IH. Qed.

Lemma join_cons2 sep line line' lines :
  join sep (line :: line' :: lines) = line +:+ sep +:+ join sep (line' :: lines).
Proof. done. Qed.

Lemma join_snoc_empty sep lines :
  lines ≠ [] → join sep lines +:+ sep = join sep (lines ++ [EmptyString]).
Proof.
  induction lines as [|line lines IH]; [done|]. intros _.
  destruct lines as [|line' lines].
  - change (join sep ([line] ++ [EmptyString]))
      with (line +:+ sep +:+ EmptyString).
    by rewrite append_nil_r.
  - change ((line :: line' :: lines) ++ [EmptyString])
      with (line :: (line' :: lines) ++ [EmptyString]).
    change ((line' :: lines) ++ [EmptyString])
      with (line' :: lines ++ [EmptyString]) at 1.
    rewrite !join_cons2.
    change (line' :: lines ++ [EmptyString])
      with ((line' :: lines) ++ [EmptyString]).
    rewrite <- IH by done. by rewrite !append_assoc'.
Qed.

Lemma rawLines_of_text lines :
  lines ≠ [] →
  Forall (λ line, every notLF line = true ∧ Js.trimEnd line = line) lines →
  splitLF (replaceCRLF (join newline lines +:+ newline)) =
    lines ++ [EmptyString].
Proof.
  intros Hne Hall. rewrite replaceCRLF_splitLF, join_snoc_empty by done.
  apply splitNewline_join; [by left|by destruct lines|].
  apply Forall_app. split; [done|]. by repeat constructor.
Qed.
